(** * gencode-backmap: feature trees and annotation sets

    A shallow embedding of [featureTree.hh] and [annotationSet.hh].  Each
    C++ class is a module of the same name holding its record [t] and its
    methods.

    Two views of the C++ data are used.

    - The owned view: a [FeatureNode] exclusively owns its record and its
      children ([~FeatureNode] deletes both), and a [ResultFeatureTrees]
      owns its [mapped], [unmapped] and [target] trees ([free] deletes all
      three).  An owned tree is a value: a nested inductive type whose
      child vector is a list of trees.  A method that mutates a tree
      through its pointer becomes a function from the tree to the updated
      tree; a NULL pointer is [None].
    - The linked view (module [Linked]): nodes live in a store indexed by
      address, with the [fParent] back-reference and the child vector
      holding addresses.  It is used for [addChild], whose effect is on
      the links themselves. *)

From Stdlib Require Import ZArith QArith Qcanon Lia.
From stdpp Require Import gmap strings list fin_maps numbers.

Local Open Scope Z_scope.

(** * Part I: the embedding *)

(** ** Status vocabularies *)

(** Modelled from the spec: [remapStatus.hh] is not part of the sources.
    The header names [REMAP_STATUS_NONE] and [REMAP_STATUS_DELETED] and, in
    a comment, the forced states [GENE_CONFLICT] and [GENE_SIZE_CHANGE]; the
    spec adds fully mapped, partially mapped, and the variant used when the
    source sequence took no part in the mapping. *)
Inductive RemapStatus : Set :=
  | REMAP_STATUS_NONE
  | REMAP_STATUS_FULL
  | REMAP_STATUS_PARTIAL
  | REMAP_STATUS_DELETED
  | REMAP_STATUS_NO_SEQ_MAP
  | REMAP_STATUS_GENE_CONFLICT
  | REMAP_STATUS_GENE_SIZE_CHANGE.

(** Modelled from the spec: the header names [TARGET_STATUS_NA] and
    [TARGET_STATUS_LOST]; the spec adds new and overlap-found. *)
Inductive TargetStatus : Set :=
  | TARGET_STATUS_NA
  | TARGET_STATUS_NEW
  | TARGET_STATUS_LOST
  | TARGET_STATUS_OVERLAP.

#[global] Instance RemapStatus_eq_dec : EqDecision RemapStatus.
Proof. solve_decision. Defined.

#[global] Instance TargetStatus_eq_dec : EqDecision TargetStatus.
Proof. solve_decision. Defined.

(** ** Feature records *)

(** Modelled from the spec: [gxf.hh] is not part of the sources.  A record
    has a type tag, a sequence id, a half-open interval, a strand, a source
    flag and a string-keyed attribute bag whose keys need not be unique. *)
Inductive GxfType : Set := GENE | TRANSCRIPT | EXON | OTHER.

Inductive GxfSource : Set := SOURCE_HAVANA | SOURCE_ENSEMBL.

#[global] Instance GxfType_eq_dec : EqDecision GxfType.
Proof. solve_decision. Defined.

#[global] Instance GxfSource_eq_dec : EqDecision GxfSource.
Proof. solve_decision. Defined.

Record GxfFeature : Set := mkGxfFeature {
  fSeqid : string;
  fSource : GxfSource;
  fType : GxfType;
  fStart : Z;
  fEnd : Z;
  fStrand : string;
  fAttrs : list (string * string)
}.

#[global] Instance GxfFeature_eq_dec : EqDecision GxfFeature.
Proof. solve_decision. Defined.

(** [GxfFeatureVector hits]: what [push_back] adds goes last. *)
Abbreviation GxfFeatureVector := (list GxfFeature).

(** The outcome of a call that may stop at an [assert] or at a [throw]. *)
Inductive outcome (A : Type) : Type :=
  | Returns (a : A)
  | AssertionFailed
  | Throws (what : string)
  | Undefined.
Arguments Returns {A} a.
Arguments AssertionFailed {A}.
Arguments Throws {A} what.
Arguments Undefined {A}.

(** A call whose recursion is followed to a bounded depth: [None] when the
    bound is reached before the call is over. *)
Abbreviation bounded A := (option (outcome A)).

(** [x; k]: the rest runs only when the first part returned. *)
Definition andThen {A B : Type} (x : bounded A) (k : A -> bounded B)
  : bounded B :=
  match x with
  | Some (Returns a) => k a
  | Some AssertionFailed => Some AssertionFailed
  | Some (Throws what) => Some (Throws what)
  | Some Undefined => Some Undefined
  | None => None
  end.

(** ** FeatureNode, owned view *)

Module FeatureNode.

Local Unset Elimination Schemes.

(** [fParent] is a non-owning back-reference and is not part of the owned
    value; it is modelled in [Linked]. *)
Inductive t : Set := mk {
  fFeature : GxfFeature;
  fChildren : list t;
  fRemapStatus : RemapStatus;
  fTargetStatus : TargetStatus;
  fNumMappings : Z
}.

(** The constructor [FeatureNode(GxfFeature* feature)]. *)
Definition new (feature : GxfFeature) : t :=
  mk feature [] REMAP_STATUS_NONE TARGET_STATUS_NA 0.

Definition isGene (n : t) : bool :=
  bool_decide (fType (fFeature n) = GENE).

Definition isTranscript (n : t) : bool :=
  bool_decide (fType (fFeature n) = TRANSCRIPT).

Definition isExon (n : t) : bool :=
  bool_decide (fType (fFeature n) = EXON).

Definition isGeneOrTranscript (n : t) : bool :=
  isGene n || isTranscript n.

Definition isAutomatic (n : t) : bool :=
  bool_decide (fSource (fFeature n) = SOURCE_ENSEMBL).

(** [setRemapStatus]: [fRemapStatus = remapStatus]. *)
Definition setRemapStatus (remapStatus : RemapStatus) (n : t) : t :=
  mk (fFeature n) (fChildren n) remapStatus (fTargetStatus n)
     (fNumMappings n).

(** [getMatching]: the node's own record is tested and pushed on [hits],
    then each child is visited in index order with the same [hits]
    vector. *)
Fixpoint getMatching (filter : GxfFeature -> bool) (n : t)
    (hits : GxfFeatureVector) {struct n} : GxfFeatureVector :=
  let hits := if filter (fFeature n) then hits ++ [fFeature n] else hits in
  (fix children (cs : list t) (hits : GxfFeatureVector) {struct cs}
     : GxfFeatureVector :=
     match cs with
     | [] => hits
     | c :: cs' => children cs' (getMatching filter c hits)
     end) (fChildren n) hits.

(** [isPseudogene].  The accessor [getTypeBiotype] of the record is not
    part of the sources and is a parameter.  [biotype.find(s) != npos]
    says that [s] occurs in [biotype]; [String.index 0 s biotype] is the
    position of the first occurrence. *)
Definition isPseudogene (getTypeBiotype : GxfFeature -> string) (n : t)
  : bool :=
  let biotype := getTypeBiotype (fFeature n) in
  bool_decide (biotype <> "polymorphic_pseudogene")
  && bool_decide (String.index 0 "pseudogene" biotype <> None).

(** The methods of [FeatureNode] that the header only declares (their
    bodies are in [featureTree.cc], not part of the sources) and that
    [ResultFeatureTrees] calls.  Each mutates the tree it is called on,
    so each is a function on the owned tree. *)
Class OutOfLine : Type := {
  rsetRemapStatus : RemapStatus -> t -> t;
  setTargetStatus : TargetStatus -> t -> t;
  rsetTargetStatus : TargetStatus -> t -> t;
  rsetTargetStatusAttr : t -> t;
  setNumMappingsAttr : t -> t;
  rsetRemapStatusAttr : t -> t
}.

(** Modelled from the spec: the bodies of [anyChildWithRemapStatus] and
    [allChildWithRemapStatus] are missing.  The header declares the
    argument as an unsigned set of statuses; the enumerators' bit values
    are missing too, so the set is the list of its members. *)
Definition anyChildWithRemapStatus (remapStatusSet : list RemapStatus)
    (n : t) : bool :=
  existsb (fun c => bool_decide (fRemapStatus c ∈ remapStatusSet))
          (fChildren n).

(** Modelled from the spec: as above, for every child. *)
Definition allChildWithRemapStatus (remapStatusSet : list RemapStatus)
    (n : t) : bool :=
  forallb (fun c => bool_decide (fRemapStatus c ∈ remapStatusSet))
          (fChildren n).

(** *** Exon similarity *)

(** Modelled from the spec: the exons of a transcript are its children of
    type exon. *)
Definition exons (trans : t) : list t := List.filter isExon (fChildren trans).

(** Modelled from the spec: the length of a half-open interval. *)
Definition size (f : GxfFeature) : Z := fEnd f - fStart f.

(** Modelled from the spec: the body of [getTranscriptExonSize] is
    missing; the total exonic length of a transcript. *)
Definition getTranscriptExonSize (trans : t) : Z :=
  foldr (fun e acc => size (fFeature e) + acc) 0 (exons trans).

(** Modelled from the spec: the bases two records share, counted only
    for a pair on matching sequence and strand. *)
Definition overlapBases (f1 f2 : GxfFeature) : Z :=
  if bool_decide (fSeqid f1 = fSeqid f2)
     && bool_decide (fStrand f1 = fStrand f2)
  then Z.max 0 (Z.min (fEnd f1) (fEnd f2) - Z.max (fStart f1) (fStart f2))
  else 0.

(** Modelled from the spec: the body of [countExonOverlap] is missing;
    the overlapping bases of one exon with the exons of a transcript. *)
Definition countExonOverlap (exon1 trans2 : t) : Z :=
  foldr (fun e2 acc => overlapBases (fFeature exon1) (fFeature e2) + acc)
        0 (exons trans2).

(** Modelled from the spec: the body of [getOverlapAmount] is missing;
    overlapping bases accumulated over every exon pair. *)
Definition getOverlapAmount (trans1 trans2 : t) : Z :=
  foldr (fun e1 acc => countExonOverlap e1 trans2 + acc) 0 (exons trans1).

(** Modelled from the spec: the body of [getExonSimilarity] is missing.
    It returns 0 when either transcript has no exons or the sequences
    differ; otherwise the accumulated overlap divided by the total
    exonic length of the larger transcript.  The [float] quotient is
    kept as the exact rational. *)
Definition getExonSimilarity (trans1 trans2 : t) : Qc :=
  match exons trans1, exons trans2 with
  | [], _ | _, [] => 0%Qc
  | _, _ =>
    if bool_decide (fSeqid (fFeature trans1) = fSeqid (fFeature trans2))
    then (Qc_of_Z (getOverlapAmount trans1 trans2)
          / Qc_of_Z (Z.max (getTranscriptExonSize trans1)
                           (getTranscriptExonSize trans2)))%Qc
    else 0%Qc
  end.

End FeatureNode.

(** [FeatureNodeVector]: a vector of node pointers. *)
Abbreviation FeatureNodeVector := (list FeatureNode.t).

(** ** ResultFeatureTrees *)

Module ResultFeatureTrees.

(** [src] points to a const node owned elsewhere; the three others are
    owned. *)
Record t : Set := mk {
  src : option FeatureNode.t;
  mapped : option FeatureNode.t;
  unmapped : option FeatureNode.t;
  target : option FeatureNode.t
}.

(** The constructor leaves [target] NULL. *)
Definition new (src mapped unmapped : option FeatureNode.t) : t :=
  mk src mapped unmapped None.

(** [if (mapped != NULL) mapped->f()]. *)
Definition onMapped (f : FeatureNode.t -> FeatureNode.t) (r : t) : t :=
  match mapped r with
  | Some m => mk (src r) (Some (f m)) (unmapped r) (target r)
  | None => r
  end.

(** [if (unmapped != NULL) unmapped->f()]. *)
Definition onUnmapped (f : FeatureNode.t -> FeatureNode.t) (r : t) : t :=
  match unmapped r with
  | Some u => mk (src r) (mapped r) (Some (f u)) (target r)
  | None => r
  end.

(** [freeMapped]: the mapped tree is deleted and the pointer set to
    NULL. *)
Definition freeMapped (r : t) : t :=
  mk (src r) None (unmapped r) (target r).

(** [freeUnmapped]: the unmapped tree is deleted and the pointer set to
    NULL. *)
Definition freeUnmapped (r : t) : t :=
  mk (src r) (mapped r) None (target r).

Definition getRemapStatus (r : t) : RemapStatus :=
  match mapped r with
  | Some m => FeatureNode.fRemapStatus m
  | None =>
    match unmapped r with
    | Some u => FeatureNode.fRemapStatus u
    | None =>
      match target r with
      | Some tg => FeatureNode.fRemapStatus tg
      | None => REMAP_STATUS_DELETED
      end
    end
  end.

Definition getTargetStatus (r : t) : TargetStatus :=
  match mapped r with
  | Some m => FeatureNode.fTargetStatus m
  | None =>
    match unmapped r with
    | Some u => FeatureNode.fTargetStatus u
    | None =>
      match target r with
      | Some tg => FeatureNode.fTargetStatus tg
      | None => TARGET_STATUS_LOST
      end
    end
  end.

Definition getNumMappings (r : t) : Z :=
  match mapped r with
  | Some m => FeatureNode.fNumMappings m
  | None =>
    match unmapped r with
    | Some u => FeatureNode.fNumMappings u
    | None => 0
    end
  end.

Section FanOut.
Context `{FeatureNode.OutOfLine}.

Definition rsetRemapStatus (remapStatus : RemapStatus) (r : t) : t :=
  onUnmapped (FeatureNode.rsetRemapStatus remapStatus)
    (onMapped (FeatureNode.rsetRemapStatus remapStatus) r).

Definition setTargetStatus (targetStatus : TargetStatus) (r : t) : t :=
  onUnmapped (FeatureNode.setTargetStatus targetStatus)
    (onMapped (FeatureNode.setTargetStatus targetStatus) r).

Definition rsetTargetStatus (targetStatus : TargetStatus) (r : t) : t :=
  onUnmapped (FeatureNode.rsetTargetStatus targetStatus)
    (onMapped (FeatureNode.rsetTargetStatus targetStatus) r).

Definition rsetTargetStatusAttr (r : t) : t :=
  onUnmapped FeatureNode.rsetTargetStatusAttr
    (onMapped FeatureNode.rsetTargetStatusAttr r).

Definition setNumMappingsAttr (r : t) : t :=
  onUnmapped FeatureNode.setNumMappingsAttr
    (onMapped FeatureNode.setNumMappingsAttr r).

Definition rsetRemapStatusAttr (r : t) : t :=
  onUnmapped FeatureNode.rsetRemapStatusAttr
    (onMapped FeatureNode.rsetRemapStatusAttr r).
End FanOut.

(** Modelled from the spec: the children the aggregation looks at are
    those of the mapped tree and those of the unmapped tree. *)
Definition children (r : t) : list FeatureNode.t :=
  from_option FeatureNode.fChildren [] (mapped r)
  ++ from_option FeatureNode.fChildren [] (unmapped r).

(** Modelled from the spec: the bodies of the private
    [anyChildWithRemapStatus] and [allChildWithRemapStatus] are missing;
    they ask the question of the trees that are present. *)
Definition anyChildWithRemapStatus (remapStatusSet : list RemapStatus)
    (r : t) : bool :=
  from_option (FeatureNode.anyChildWithRemapStatus remapStatusSet) false
              (mapped r)
  || from_option (FeatureNode.anyChildWithRemapStatus remapStatusSet) false
                 (unmapped r).

(** Modelled from the spec: as above, for every child of the trees that
    are present. *)
Definition allChildWithRemapStatus (remapStatusSet : list RemapStatus)
    (r : t) : bool :=
  from_option (FeatureNode.allChildWithRemapStatus remapStatusSet) true
              (mapped r)
  && from_option (FeatureNode.allChildWithRemapStatus remapStatusSet) true
                 (unmapped r).

(** Modelled from the spec: the body of [calcBoundingFeatureRemapStatus]
    is missing.  A child counts as mapped when its status is fully or
    partially mapped.  Deleted if no child mapped (the excluded variant
    instead when the source sequence was not in the mapping), fully
    mapped if every child is fully mapped, partially mapped otherwise. *)
Definition calcBoundingFeatureRemapStatus (srcSeqInMapping : bool) (r : t)
  : RemapStatus :=
  if negb (anyChildWithRemapStatus
             [REMAP_STATUS_FULL; REMAP_STATUS_PARTIAL] r)
  then (if srcSeqInMapping then REMAP_STATUS_DELETED
        else REMAP_STATUS_NO_SEQ_MAP)
  else if allChildWithRemapStatus [REMAP_STATUS_FULL] r
  then REMAP_STATUS_FULL
  else REMAP_STATUS_PARTIAL.

Definition setBoundingFeatureRemapStatus (srcSeqInMapping : bool) (r : t)
  : t :=
  let remapStatus := calcBoundingFeatureRemapStatus srcSeqInMapping r in
  onUnmapped (FeatureNode.setRemapStatus remapStatus)
    (onMapped (FeatureNode.setRemapStatus remapStatus) r).

End ResultFeatureTrees.

(** ** ResultFeatureTreesVector *)

Module ResultFeatureTreesVector.

(** [class ResultFeatureTreesVector: public vector<ResultFeatureTrees>]. *)
Abbreviation t := (list ResultFeatureTrees.t).

(** [haveMapped]: the loop returns true at the first element whose
    [mapped] is not NULL, and false after the last element. *)
Fixpoint haveMapped (v : t) : bool :=
  match v with
  | [] => false
  | r :: v' =>
    if bool_decide (ResultFeatureTrees.mapped r <> None) then true
    else haveMapped v'
  end.

(** [haveUnmapped]: the same loop on [unmapped]. *)
Fixpoint haveUnmapped (v : t) : bool :=
  match v with
  | [] => false
  | r :: v' =>
    if bool_decide (ResultFeatureTrees.unmapped r <> None) then true
    else haveUnmapped v'
  end.

End ResultFeatureTreesVector.

(** ** TransMappedFeature *)

Module TransMappedFeature.

Record t : Set := mk {
  src : option FeatureNode.t;
  mapped : FeatureNodeVector;
  unmapped : FeatureNodeVector
}.

(** [calcRemapStatus] is only declared in the header. *)
Class OutOfLine : Type := {
  calcRemapStatus : bool -> t -> RemapStatus
}.

(** The constructor [TransMappedFeature(const FeatureNode* src)]. *)
Definition new (src : option FeatureNode.t) : t := mk src [] [].

(** The constructor [TransMappedFeature(ResultFeatureTrees& featureTrees)]:
    the trees that are present are pushed on the collections. *)
Definition ofResultFeatureTrees (featureTrees : ResultFeatureTrees.t) : t :=
  mk (ResultFeatureTrees.src featureTrees)
     (match ResultFeatureTrees.mapped featureTrees with
      | Some m => [m]
      | None => []
      end)
     (match ResultFeatureTrees.unmapped featureTrees with
      | Some u => [u]
      | None => []
      end).

Definition addMapped (featureNode : FeatureNode.t) (f : t) : t :=
  mk (src f) (mapped f ++ [featureNode]) (unmapped f).

Definition addUnmapped (featureNode : FeatureNode.t) (f : t) : t :=
  mk (src f) (mapped f) (unmapped f ++ [featureNode]).

(** The two loops assign [fRemapStatus] at every index of [mapped], then
    of [unmapped]. *)
Definition setRemapStatus `{OutOfLine} (srcSeqInMapping : bool) (f : t)
  : t :=
  let remapStatus := calcRemapStatus srcSeqInMapping f in
  mk (src f)
     (List.map (FeatureNode.setRemapStatus remapStatus) (mapped f))
     (List.map (FeatureNode.setRemapStatus remapStatus) (unmapped f)).

End TransMappedFeature.

(** ** AnnotationSet *)

(** What a [GxfWriter] has been asked to emit, oldest first. *)
Inductive GxfOutput : Set :=
  | SeqRegionLine (seqId : string) (size : option Z)
  | FeatureLine (feature : GxfFeature).

Abbreviation GxfWriter := (list GxfOutput).

Module AnnotationSet.

(** [map<const string, FeatureNodeVector>]. *)
Abbreviation FeatureMap := (gmap string FeatureNodeVector).

(** The range tree [fLocationMap] is an external structure and plays no
    part below. *)
Record t : Type := mk {
  fIdFeatureMap : FeatureMap;
  fNameFeatureMap : FeatureMap;
  fGenes : FeatureNodeVector;
  fSeqRegionsWritten : gset string;
  fGenomeSizes : option (gmap string Z)
}.

(** The constructor of the empty set. *)
Definition new (genomeSizes : option (gmap string Z)) : t :=
  mk ∅ ∅ [] ∅ genomeSizes.

Definition getGenes (a : t) : FeatureNodeVector := fGenes a.

(** [checkRecordSeqRegionWritten]: the returned flag and the set after
    the call. *)
Definition checkRecordSeqRegionWritten (seqid : string) (a : t)
  : bool * t :=
  if bool_decide (seqid ∉ fSeqRegionsWritten a)
  then (false,
        mk (fIdFeatureMap a) (fNameFeatureMap a) (fGenes a)
           ({[seqid]} ∪ fSeqRegionsWritten a) (fGenomeSizes a))
  else (true, a).

(** Modelled from the spec: the body of [getFeatureByKey] is missing.
    Exact-key lookup; with more than one entry under the key the result
    is an entry whose sequence id differs from [seqIdForParCheck]; no
    result when the key is absent or no entry qualifies. *)
Definition getFeatureByKey (key : string) (featureMap : FeatureMap)
    (seqIdForParCheck : string) : outcome (option FeatureNode.t) :=
  match featureMap !! key with
  | None => Returns None
  | Some [] => Returns None
  | Some [f] => Returns (Some f)
  | Some fs =>
    Returns
      (List.find
         (fun f => bool_decide
                     (fSeqid (FeatureNode.fFeature f) ≠ seqIdForParCheck))
         fs)
  end.

(** Modelled from the spec: the bodies of [getFeatureById] and
    [getFeatureByName] are missing; each looks its key up in its own
    index. *)
Definition getFeatureById (id seqIdForParCheck : string) (a : t)
  : outcome (option FeatureNode.t) :=
  getFeatureByKey id (fIdFeatureMap a) seqIdForParCheck.

(** Modelled from the spec: as above, in the name index. *)
Definition getFeatureByName (name seqIdForParCheck : string) (a : t)
  : outcome (option FeatureNode.t) :=
  getFeatureByKey name (fNameFeatureMap a) seqIdForParCheck.

(** Modelled from the spec: the body of [outputSeqRegion] is missing; a
    sequence-region declaration carries the sequence id and its length,
    read from the genome-size table when there is one. *)
Definition outputSeqRegion (seqId : string) (size : option Z)
    (gxfFh : GxfWriter) : GxfWriter :=
  gxfFh ++ [SeqRegionLine seqId size].

(** Modelled from the spec: the body of [outputMappedSeqRegionIfNeed] is
    missing; the header of the gene's sequence is emitted unless
    [checkRecordSeqRegionWritten] says it has been. *)
Definition outputMappedSeqRegionIfNeed (gene : FeatureNode.t)
    (st : t * GxfWriter) : t * GxfWriter :=
  let seqId := fSeqid (FeatureNode.fFeature gene) in
  let '(written, a) := checkRecordSeqRegionWritten seqId st.1 in
  if written then (a, st.2)
  else (a, outputSeqRegion seqId (fGenomeSizes a ≫= (.!! seqId)) st.2).

(** Modelled from the spec: the body of [outputFeature] is missing; the
    records of the gene tree, depth first. *)
Definition outputFeature (feature : FeatureNode.t) (gxfFh : GxfWriter)
  : GxfWriter :=
  gxfFh ++ List.map FeatureLine
                    (FeatureNode.getMatching (fun _ => true) feature []).

(** Modelled from the spec: one round of the loop of [write], the header
    of the gene's sequence when that is still needed, then the gene. *)
Definition writeGene (gene : FeatureNode.t) (st : t * GxfWriter)
  : t * GxfWriter :=
  let st' := outputMappedSeqRegionIfNeed gene st in
  (st'.1, outputFeature gene st'.2).

(** Modelled from the spec: the body of [write] is missing; every gene
    in the current order. *)
Definition write (a : t) (gxfFh : GxfWriter) : t * GxfWriter :=
  fold_left (fun st gene => writeGene gene st) (fGenes a) (a, gxfFh).

(** The sequence ids of the sequence-region headers in an output. *)
Definition seqRegionsOf (gxfFh : GxfWriter) : list string :=
  omap (fun o => match o with
                 | SeqRegionLine s _ => Some s
                 | FeatureLine _ => None
                 end) gxfFh.

(** A run of calls of [checkRecordSeqRegionWritten], one per sequence
    id, with the flags returned. *)
Fixpoint checkRecordAll (seqids : list string) (a : t) : list bool * t :=
  match seqids with
  | [] => ([], a)
  | s :: rest =>
    let '(b, a1) := checkRecordSeqRegionWritten s a in
    let '(bs, a2) := checkRecordAll rest a1 in
    (b :: bs, a2)
  end.

(** The sequence ids of a run for which the call returned false, in the
    order of the calls. *)
Definition newlyRecorded (seqids : list string) (a : t) : list string :=
  (List.filter (fun p => negb p.2)
               (zip seqids (checkRecordAll seqids a).1)).*1.

End AnnotationSet.

(** ** FeatureNode, linked view *)

Module Linked.

(** A node address; NULL is [None] at type [option addr]. *)
Definition addr : Set := positive.

Record FeatureNode : Set := mkFeatureNode {
  fFeature : GxfFeature;
  fParent : option addr;
  fChildren : list addr;
  fRemapStatus : RemapStatus;
  fTargetStatus : TargetStatus;
  fNumMappings : Z
}.

(** The constructor [FeatureNode(GxfFeature* feature)]. *)
Definition newFeatureNode (feature : GxfFeature) : FeatureNode :=
  mkFeatureNode feature None [] REMAP_STATUS_NONE TARGET_STATUS_NA 0.

(** The nodes that are allocated. *)
Abbreviation store := (gmap addr FeatureNode).

(** [fChildren.push_back(node)]. *)
Definition push_child (node : addr) (n : FeatureNode) : FeatureNode :=
  mkFeatureNode (fFeature n) (fParent n) (fChildren n ++ [node])
                (fRemapStatus n) (fTargetStatus n) (fNumMappings n).

(** [fParent = parent]. *)
Definition set_parent (parent : addr) (n : FeatureNode) : FeatureNode :=
  mkFeatureNode (fFeature n) (Some parent) (fChildren n)
                (fRemapStatus n) (fTargetStatus n) (fNumMappings n).

(** [this->addChild(node)].  Reading through a pointer that is not
    allocated is undefined.  The two assignments happen in the order of
    the code, so [this == node] is covered. *)
Definition addChild (this node : addr) (h : store) : outcome store :=
  match h !! node, h !! this with
  | Some n, Some _ =>
    if bool_decide (fParent n = None)
    then Returns (alter (set_parent this) node
                        (alter (push_child node) this h))
    else AssertionFailed
  | _, _ => Undefined
  end.

(** [new FeatureNode(feature)], the allocator returning [node]: an
    address that is not in use. *)
Definition new (node : addr) (feature : GxfFeature) (h : store)
  : outcome store :=
  match h !! node with
  | None => Returns (<[node := newFeatureNode feature]> h)
  | Some _ => Undefined
  end.

(** [fRemapStatus = remapStatus]. *)
Definition set_remapStatus (remapStatus : RemapStatus) (n : FeatureNode)
  : FeatureNode :=
  mkFeatureNode (fFeature n) (fParent n) (fChildren n) remapStatus
                (fTargetStatus n) (fNumMappings n).

(** The loop [for (i...) delete fChildren[i]] of the destructor, given
    what [delete] does on one child. *)
Fixpoint deleteEach (deleteNode : addr -> store -> bounded store)
    (children : list addr) (h : store) : bounded store :=
  match children with
  | [] => Some (Returns h)
  | c :: children' =>
    andThen (deleteNode c h) (deleteEach deleteNode children')
  end.

(** [delete node] for a node pointer that is not NULL, executed while the
    destructors of the nodes [running] are under way.  The destructor
    [~FeatureNode] first releases the record ([delete fFeature]), then
    deletes the children in index order; after it the storage of the node
    is released.  The record [fFeature] is part of the node here, so a
    node whose record is released and whose storage is not is a node whose
    destructor is under way.  Entering the destructor of such a node
    releases its record a second time, which is undefined; so is deleting
    what is not allocated.  [fuel] bounds the depth of the recursion. *)
Fixpoint deleteWithin (fuel : nat) (running : list addr) (node : addr)
    (h : store) : bounded store :=
  match fuel with
  | O => None
  | S fuel' =>
    match h !! node with
    | None => Some Undefined
    | Some n =>
      if bool_decide (node ∈ running) then Some Undefined
      else
        andThen (deleteEach (deleteWithin fuel' (node :: running))
                            (fChildren n) h)
          (fun h1 =>
             match h1 !! node with
             | Some _ => Some (Returns (delete node h1))
             | None => Some Undefined
             end)
    end
  end.

(** [delete node] in code that is not part of a destructor. *)
Definition deleteNode (fuel : nat) (node : addr) (h : store)
  : bounded store :=
  deleteWithin fuel [] node h.

(** [delete p]: nothing happens for a NULL pointer. *)
Definition deletePtr (fuel : nat) (p : option addr) (h : store)
  : bounded store :=
  match p with
  | Some node => deleteNode fuel node h
  | None => Some (Returns h)
  end.

Module ResultFeatureTrees.

Record t : Set := mk {
  src : option addr;
  mapped : option addr;
  unmapped : option addr;
  target : option addr
}.

(** [free]: the three trees are deleted; the pointers are left as they
    are. *)
Definition free (fuel : nat) (r : t) (h : store) : bounded store :=
  andThen (deletePtr fuel (mapped r) h) (fun h1 =>
  andThen (deletePtr fuel (unmapped r) h1) (fun h2 =>
  deletePtr fuel (target r) h2)).

(** [freeMapped]: [delete mapped; mapped = NULL]. *)
Definition freeMapped (fuel : nat) (r : t) (h : store) : bounded (t * store) :=
  andThen (deletePtr fuel (mapped r) h) (fun h1 =>
  Some (Returns (mk (src r) None (unmapped r) (target r), h1))).

(** [freeUnmapped]: [delete unmapped; unmapped = NULL]. *)
Definition freeUnmapped (fuel : nat) (r : t) (h : store)
  : bounded (t * store) :=
  andThen (deletePtr fuel (unmapped r) h) (fun h1 =>
  Some (Returns (mk (src r) (mapped r) None (target r), h1))).

(** [p->fRemapStatus]. *)
Definition readRemapStatus (p : addr) (h : store) : outcome RemapStatus :=
  match h !! p with
  | Some n => Returns (fRemapStatus n)
  | None => Undefined
  end.

Definition getRemapStatus (r : t) (h : store) : outcome RemapStatus :=
  match mapped r with
  | Some m => readRemapStatus m h
  | None =>
    match unmapped r with
    | Some u => readRemapStatus u h
    | None =>
      match target r with
      | Some tg => readRemapStatus tg h
      | None => Returns REMAP_STATUS_DELETED
      end
    end
  end.

End ResultFeatureTrees.

Module TransMappedFeature.

Record t : Set := mk {
  src : option addr;
  mapped : list addr;
  unmapped : list addr
}.

(** The constructor [TransMappedFeature(ResultFeatureTrees& featureTrees)]:
    the pointers that are not NULL are pushed on the vectors. *)
Definition ofResultFeatureTrees (featureTrees : ResultFeatureTrees.t) : t :=
  mk (ResultFeatureTrees.src featureTrees)
     (match ResultFeatureTrees.mapped featureTrees with
      | Some m => [m]
      | None => []
      end)
     (match ResultFeatureTrees.unmapped featureTrees with
      | Some u => [u]
      | None => []
      end).

Definition addMapped (featureNode : addr) (f : t) : t :=
  mk (src f) (mapped f ++ [featureNode]) (unmapped f).

Definition addUnmapped (featureNode : addr) (f : t) : t :=
  mk (src f) (mapped f) (unmapped f ++ [featureNode]).

(** [calcRemapStatus] is only declared in the header; it is a const method
    and may read the nodes. *)
Class OutOfLine : Type := {
  calcRemapStatus : bool -> t -> store -> RemapStatus
}.

(** The loop [for (i...) nodes[i]->fRemapStatus = remapStatus]. *)
Fixpoint assignRemapStatus (remapStatus : RemapStatus) (nodes : list addr)
    (h : store) : outcome store :=
  match nodes with
  | [] => Returns h
  | p :: nodes' =>
    match h !! p with
    | Some n =>
      assignRemapStatus remapStatus nodes'
        (<[p := set_remapStatus remapStatus n]> h)
    | None => Undefined
    end
  end.

Definition setRemapStatus `{OutOfLine} (srcSeqInMapping : bool) (f : t)
    (h : store) : outcome store :=
  let remapStatus := calcRemapStatus srcSeqInMapping f h in
  match assignRemapStatus remapStatus (mapped f) h with
  | Returns h1 => assignRemapStatus remapStatus (unmapped f) h1
  | stop => stop
  end.

End TransMappedFeature.

End Linked.

(** * Part II: the vocabulary of the properties *)

(** ** Induction on owned trees *)

Section FeatureNode_induction.
Variable P : FeatureNode.t -> Prop.
Hypothesis step :
  forall f cs rs ts nm, Forall P cs -> P (FeatureNode.mk f cs rs ts nm).

Fixpoint FeatureNode_ind (n : FeatureNode.t) : P n :=
  match n with
  | FeatureNode.mk f cs rs ts nm =>
    step f cs rs ts nm
      ((fix all (l : list FeatureNode.t) : Forall P l :=
          match l with
          | [] => Forall_nil P
          | c :: l' => Forall_cons P c l' (FeatureNode_ind c) (all l')
          end) cs)
  end.
End FeatureNode_induction.

(** ** Pre-order traversal *)

(** Following the spec's words: the pre-order sequence of the nodes of a
    subtree, a node before the nodes of its child subtrees, the children in
    insertion order. *)
Fixpoint preorder (n : FeatureNode.t) : list FeatureNode.t :=
  n :: (fix forest (cs : list FeatureNode.t) : list FeatureNode.t :=
          match cs with
          | [] => []
          | c :: cs' => preorder c ++ forest cs'
          end) (FeatureNode.fChildren n).

(** Following the spec's words: the records, in pre-order, of the nodes
    whose record satisfies the predicate. *)
Definition matching (filter : GxfFeature -> bool) (n : FeatureNode.t)
  : GxfFeatureVector :=
  FeatureNode.fFeature
    <$> List.filter (fun m => filter (FeatureNode.fFeature m)) (preorder n).

(** ** Fanning a node operation out *)

(** [g] applies the node operation [f] to whichever of the mapped and
    unmapped trees are present and leaves [src] and [target] as they
    were. *)
Definition fans_out (f : FeatureNode.t -> FeatureNode.t)
    (g : ResultFeatureTrees.t -> ResultFeatureTrees.t) : Prop :=
  forall r,
    ResultFeatureTrees.src (g r) = ResultFeatureTrees.src r
    /\ ResultFeatureTrees.mapped (g r) = f <$> ResultFeatureTrees.mapped r
    /\ ResultFeatureTrees.unmapped (g r) = f <$> ResultFeatureTrees.unmapped r
    /\ ResultFeatureTrees.target (g r) = ResultFeatureTrees.target r.

(** [n'] is [n] with possibly another remap status. *)
Definition same_but_remapStatus (n n' : FeatureNode.t) : Prop :=
  FeatureNode.fFeature n' = FeatureNode.fFeature n
  /\ FeatureNode.fChildren n' = FeatureNode.fChildren n
  /\ FeatureNode.fTargetStatus n' = FeatureNode.fTargetStatus n
  /\ FeatureNode.fNumMappings n' = FeatureNode.fNumMappings n.

(** ** Status of a bounding feature *)

(** Following the spec's words: a child mapped when it is fully or
    partially mapped. *)
Definition childMapped (c : FeatureNode.t) : Prop :=
  FeatureNode.fRemapStatus c = REMAP_STATUS_FULL
  \/ FeatureNode.fRemapStatus c = REMAP_STATUS_PARTIAL.

(** ** Lookup by id and by name *)

(** What a lookup of [key] in an index returns, [seqIdForParCheck] being
    the sequence id to steer away from: always a normal return; no result
    for an absent key; the entry itself when it is the only one; with more
    than one entry, an entry whose sequence id differs from
    [seqIdForParCheck], and no result when there is none. *)
Definition par_lookup (featureMap : AnnotationSet.FeatureMap)
    (key seqIdForParCheck : string) (res : outcome (option FeatureNode.t))
  : Prop :=
  let seqid f := fSeqid (FeatureNode.fFeature f) in
  (exists found, res = Returns found)
  /\ (featureMap !! key = None -> res = Returns None)
  /\ (forall f, featureMap !! key = Some [f] -> res = Returns (Some f))
  /\ (forall fs,
        featureMap !! key = Some fs ->
        (1 < length fs)%nat ->
        (forall f, res = Returns (Some f) ->
                   f ∈ fs /\ seqid f <> seqIdForParCheck)
        /\ ((forall f, f ∈ fs -> seqid f = seqIdForParCheck) ->
            res = Returns None)
        /\ (forall f1 f2,
              fs = [f1; f2] -> seqid f1 = seqIdForParCheck ->
              seqid f2 <> seqIdForParCheck -> res = Returns (Some f2))
        /\ (forall f1 f2,
              fs = [f1; f2] -> seqid f1 <> seqIdForParCheck ->
              seqid f2 = seqIdForParCheck -> res = Returns (Some f1))).

(** ** Exon similarity *)

(** Sums over a list, as the accumulating loops compute them. *)
Definition sumZ {A : Type} (f : A -> Z) (l : list A) : Z :=
  foldr (fun x acc => f x + acc) 0 l.

(** The part of an exon record that the similarity looks at. *)
Record ExonSpan : Set := mkExonSpan {
  sSeqid : string;
  sStrand : string;
  sStart : Z;
  sEnd : Z
}.

#[global] Instance ExonSpan_eq_dec : EqDecision ExonSpan.
Proof. solve_decision. Defined.

Definition span_of (f : GxfFeature) : ExonSpan :=
  mkExonSpan (fSeqid f) (fStrand f) (fStart f) (fEnd f).

(** The exon set of a transcript. *)
Definition exonSpans (trans : FeatureNode.t) : list ExonSpan :=
  (fun e => span_of (FeatureNode.fFeature e)) <$> FeatureNode.exons trans.

Definition span_size (s : ExonSpan) : Z := sEnd s - sStart s.

Definition span_overlap (s1 s2 : ExonSpan) : Z :=
  if bool_decide (sSeqid s1 = sSeqid s2)
     && bool_decide (sStrand s1 = sStrand s2)
  then Z.max 0 (Z.min (sEnd s1) (sEnd s2) - Z.max (sStart s1) (sStart s2))
  else 0.

(** Two exons share no base: they are on different sequences or strands,
    or one ends where the other starts or before. *)
Definition span_disjoint (s1 s2 : ExonSpan) : Prop :=
  sSeqid s1 <> sSeqid s2 \/ sStrand s1 <> sStrand s2
  \/ sEnd s1 <= sStart s2 \/ sEnd s2 <= sStart s1.

(** The exons of a well-formed transcript are not empty and do not overlap
    each other. *)
Definition exons_well_formed (l : list ExonSpan) : Prop :=
  Forall (fun s => sStart s < sEnd s) l /\ ForallOrdPairs span_disjoint l.

(** ** Linked stores *)

(** The links of a store agree: a child of a node is allocated and names
    that node as its parent, the parent of a node is allocated and has it
    among its children, and no node is twice a child of one node. *)
Definition well_linked (h : Linked.store) : Prop :=
  (forall a n c,
     h !! a = Some n -> c ∈ Linked.fChildren n ->
     exists cn, h !! c = Some cn /\ Linked.fParent cn = Some a)
  /\ (forall c cn p,
        h !! c = Some cn -> Linked.fParent cn = Some p ->
        exists pn, h !! p = Some pn /\ c ∈ Linked.fChildren pn)
  /\ (forall a n, h !! a = Some n -> NoDup (Linked.fChildren n)).

(** The stores a program gets by allocating nodes with the constructor and
    attaching them with [addChild]. *)
Inductive built : Linked.store -> Prop :=
  | built_empty : built ∅
  | built_new h node feature h' :
      built h -> Linked.new node feature h = Returns h' -> built h'
  | built_addChild h this node h' :
      built h -> Linked.addChild this node h = Returns h' -> built h'.

(** One call that returns: the constructor, [addChild], the assignment of
    a remap status through a vector of node pointers, or [delete]. *)
Inductive call : Linked.store -> Linked.store -> Prop :=
  | call_new node feature h h' :
      Linked.new node feature h = Returns h' -> call h h'
  | call_addChild this node h h' :
      Linked.addChild this node h = Returns h' -> call h h'
  | call_assignRemapStatus remapStatus nodes h h' :
      Linked.TransMappedFeature.assignRemapStatus remapStatus nodes h
      = Returns h' ->
      call h h'
  | call_delete fuel node h h' :
      Linked.deleteNode fuel node h = Some (Returns h') -> call h h'.

(** The stores a program reaches from [h] by calls that return, as long as
    [node] has not been released. *)
Inductive later (node : Linked.addr)
  : Linked.store -> Linked.store -> Prop :=
  | later_now h : later node h h
  | later_call h h1 h2 :
      later node h h1 -> call h1 h2 -> is_Some (h2 !! node) ->
      later node h h2.

(** A run of calls [this->addChild(node)], one per node of the list, in
    order; it stops at the first call that does not return. *)
Fixpoint addChildren (this : Linked.addr) (nodes : list Linked.addr)
    (h : Linked.store) : outcome Linked.store :=
  match nodes with
  | [] => Returns h
  | node :: nodes' =>
    match Linked.addChild this node h with
    | Returns h1 => addChildren this nodes' h1
    | stop => stop
    end
  end.

(** A tree of node addresses: the address of a node and the trees of its
    children, in the order of the child vector. *)
#[local] Unset Elimination Schemes.
Inductive ptree : Set := PNode (root : Linked.addr) (subtrees : list ptree).
#[local] Set Elimination Schemes.

Definition proot (t : ptree) : Linked.addr :=
  match t with PNode root _ => root end.

(** The addresses of a tree, the root first. *)
Fixpoint addrs (t : ptree) : list Linked.addr :=
  match t with
  | PNode root subtrees =>
    root :: (fix forest (ts : list ptree) : list Linked.addr :=
               match ts with
               | [] => []
               | t' :: ts' => addrs t' ++ forest ts'
               end) subtrees
  end.

(** The store holds the tree [t]: the root is allocated, its child vector
    lists the roots of the subtrees in order, and the store holds each
    subtree. *)
Fixpoint shape (h : Linked.store) (t : ptree) : Prop :=
  match t with
  | PNode root subtrees =>
    (exists n, h !! root = Some n
               /\ Linked.fChildren n = proot <$> subtrees)
    /\ (fix forest (ts : list ptree) : Prop :=
          match ts with
          | [] => True
          | t' :: ts' => shape h t' /\ forest ts'
          end) subtrees
  end.

Section ptree_induction.
Variable P : ptree -> Prop.
Hypothesis step : forall root ts, Forall P ts -> P (PNode root ts).

Fixpoint ptree_induction (t : ptree) : P t :=
  match t with
  | PNode root ts =>
    step root ts
      ((fix all (l : list ptree) : Forall P l :=
          match l with
          | [] => Forall_nil P
          | t' :: l' => Forall_cons P t' l' (ptree_induction t') (all l')
          end) ts)
  end.
End ptree_induction.

(** ** Worked inputs *)

(** A parent at address 1 with one child already (address 3), and a fresh
    node at address 2. *)
Definition linked_example : Linked.store :=
  let f ty := mkGxfFeature "chr1" SOURCE_HAVANA ty 0 10 "+" [] in
  {[ 1%positive := Linked.push_child 3%positive
                     (Linked.newFeatureNode (f GENE));
     2%positive := Linked.newFeatureNode (f TRANSCRIPT);
     3%positive := Linked.set_parent 1%positive
                     (Linked.newFeatureNode (f TRANSCRIPT)) ]}.

(** Two genes on [chr1] in a set that has written nothing yet. *)
Definition two_genes_on_chr1 : AnnotationSet.t :=
  let gene s e :=
    FeatureNode.new (mkGxfFeature "chr1" SOURCE_HAVANA GENE s e "+" []) in
  AnnotationSet.mk ∅ ∅ [gene 100 200; gene 250 300] ∅ None.

(** A gene whose mapped tree holds the transcripts with the statuses
    [mappedStatuses] and whose unmapped tree holds those with
    [unmappedStatuses]. *)
Definition gene_result (mappedStatuses unmappedStatuses : list RemapStatus)
  : ResultFeatureTrees.t :=
  let rec ty := mkGxfFeature "chr1" SOURCE_HAVANA ty 100 200 "+" [] in
  let transcript st :=
    FeatureNode.mk (rec TRANSCRIPT) [] st TARGET_STATUS_NA 0 in
  let gene sts :=
    FeatureNode.mk (rec GENE) (transcript <$> sts)
                   REMAP_STATUS_NONE TARGET_STATUS_NA 0 in
  ResultFeatureTrees.mk (Some (gene []))
    (Some (gene mappedStatuses)) (Some (gene unmappedStatuses)) None.

(** Gene [G1] of a pseudoautosomal region, on [chrX] and on [chrY]. *)
Definition par_gene (seqid : string) : FeatureNode.t :=
  FeatureNode.new
    (mkGxfFeature seqid SOURCE_HAVANA GENE 100 200 "+"
                  [("gene_id", "G1"); ("gene_name", "N1")]).

Definition par_set : AnnotationSet.t :=
  AnnotationSet.mk {[ "G1" := [par_gene "chrX"; par_gene "chrY"] ]}
                   {[ "N1" := [par_gene "chrX"; par_gene "chrY"] ]}
                   [par_gene "chrX"; par_gene "chrY"] ∅ None.

(** A transcript on [seqid] with exons at the given half-open intervals. *)
Definition transcript_on (seqid : string) (spans : list (Z * Z))
  : FeatureNode.t :=
  let rec ty s e := mkGxfFeature seqid SOURCE_HAVANA ty s e "+" [] in
  FeatureNode.mk (rec TRANSCRIPT 0 100)
                 ((fun se => FeatureNode.new (rec EXON se.1 se.2)) <$> spans)
                 REMAP_STATUS_NONE TARGET_STATUS_NA 0.

(** A gene at address 1 with the transcript at address 2 attached. *)
Definition gene_with_transcript : Linked.store :=
  let f ty := mkGxfFeature "chr1" SOURCE_HAVANA ty 0 10 "+" [] in
  {[ 1%positive := Linked.push_child 2%positive
                     (Linked.newFeatureNode (f GENE));
     2%positive := Linked.set_parent 1%positive
                     (Linked.newFeatureNode (f TRANSCRIPT)) ]}.

(** [linked_example] after [addChild] of node 2 to node 1. *)
Definition linked_example_attached : Linked.store :=
  let f ty := mkGxfFeature "chr1" SOURCE_HAVANA ty 0 10 "+" [] in
  {[ 1%positive := Linked.push_child 2%positive
                     (Linked.push_child 3%positive
                        (Linked.newFeatureNode (f GENE)));
     2%positive := Linked.set_parent 1%positive
                     (Linked.newFeatureNode (f TRANSCRIPT));
     3%positive := Linked.set_parent 1%positive
                     (Linked.newFeatureNode (f TRANSCRIPT)) ]}.

(** The trees of one result in [linked_example_attached]: node 2 as the
    mapped tree, node 3 as the unmapped tree. *)
Definition linked_result : Linked.ResultFeatureTrees.t :=
  Linked.ResultFeatureTrees.mk None (Some 2%positive) (Some 3%positive) None.

(** A stand-in for the body of [calcRemapStatus], to run the examples:
    partially mapped when both collections have a node. *)
Definition calc_by_presence : Linked.TransMappedFeature.OutOfLine :=
  {| Linked.TransMappedFeature.calcRemapStatus _ f _ :=
       match Linked.TransMappedFeature.mapped f,
             Linked.TransMappedFeature.unmapped f with
       | [], _ => REMAP_STATUS_DELETED
       | _ :: _, [] => REMAP_STATUS_FULL
       | _ :: _, _ :: _ => REMAP_STATUS_PARTIAL
       end |}.

(** * Part III: properties *)

(** ** Pre-order traversal *)

Lemma preorder_unfold n :
  preorder n = n :: concat (preorder <$> FeatureNode.fChildren n).
Proof.
  destruct n as [f cs rs ts nm]; simpl. f_equal.
  induction cs as [|c cs IH]; simpl; [done | by rewrite IH].
Qed.

Lemma matching_unfold filter n :
  matching filter n =
  (if filter (FeatureNode.fFeature n) then [FeatureNode.fFeature n] else [])
  ++ concat (matching filter <$> FeatureNode.fChildren n).
Proof.
  unfold matching. rewrite preorder_unfold. simpl.
  assert (Hcs : forall l : list FeatureNode.t,
    FeatureNode.fFeature <$>
      List.filter (fun m => filter (FeatureNode.fFeature m))
                  (concat (preorder <$> l))
    = concat ((fun c => FeatureNode.fFeature <$>
                 List.filter (fun m => filter (FeatureNode.fFeature m))
                             (preorder c)) <$> l)).
  { induction l as [|c l IH]; [done|].
    rewrite !fmap_cons, !concat_cons, List.filter_app, fmap_app, IH.
    done. }
  destruct (filter (FeatureNode.fFeature n)); simpl; by rewrite Hcs.
Qed.

(** The loop over the children, as [getMatching] runs it. *)
Lemma getMatching_unfold filter n hits :
  FeatureNode.getMatching filter n hits =
  fold_left (fun h c => FeatureNode.getMatching filter c h)
            (FeatureNode.fChildren n)
            (if filter (FeatureNode.fFeature n)
             then hits ++ [FeatureNode.fFeature n] else hits).
Proof.
  destruct n as [f cs rs ts nm]; simpl.
  generalize (if filter f then hits ++ [f] else hits).
  induction cs as [|c cs IH]; intros h; simpl; [done | by rewrite IH].
Qed.

(** C8: [getMatching] appends to [hits] the records of the nodes of the
    subtree whose record satisfies the predicate, in pre-order: a node
    before its children's subtrees, the children in insertion order, and
    the whole sequence is built by the time the call returns. *)
Theorem getMatching_preorder (filter : GxfFeature -> bool)
    (n : FeatureNode.t) (hits : GxfFeatureVector) :
  FeatureNode.getMatching filter n hits = hits ++ matching filter n
  /\ preorder n = n :: concat (preorder <$> FeatureNode.fChildren n).
Proof.
  split; [|apply preorder_unfold].
  revert hits. induction n as [f cs rs ts nm IH] using FeatureNode_ind.
  intros hits. rewrite getMatching_unfold, matching_unfold. simpl.
  assert (Hloop : forall h,
    fold_left (fun h c => FeatureNode.getMatching filter c h) cs h
    = h ++ concat (matching filter <$> cs)).
  { induction IH as [|c cs Hc _ IHcs]; intros h; simpl.
    - by rewrite app_nil_r.
    - rewrite Hc, IHcs. by rewrite <- app_assoc. }
  rewrite Hloop. destruct (filter f); simpl; [|done].
  by rewrite <- app_assoc.
Qed.

Example getMatching_example :
  let rec ty s e := mkGxfFeature "chr1" SOURCE_HAVANA ty s e "+" [] in
  let leaf f := FeatureNode.new f in
  let node f cs :=
    FeatureNode.mk f cs REMAP_STATUS_NONE TARGET_STATUS_NA 0 in
  let gene :=
    node (rec GENE 0 100)
         [node (rec TRANSCRIPT 0 50)
               [leaf (rec EXON 0 10); leaf (rec EXON 20 50)];
          node (rec TRANSCRIPT 60 100) [leaf (rec EXON 60 100)]] in
  FeatureNode.getMatching (fun f => bool_decide (fType f = EXON)) gene []
  = [rec EXON 0 10; rec EXON 20 50; rec EXON 60 100]
  /\ FeatureNode.getMatching (fun f => negb (bool_decide (fType f = EXON)))
                             gene []
     = [rec GENE 0 100; rec TRANSCRIPT 0 50; rec TRANSCRIPT 60 100].
Proof. split; reflexivity. Qed.

(** ** Reading a status off a [ResultFeatureTrees] *)

(** C1: [getRemapStatus] and [getTargetStatus] read the mapped tree when
    there is one, else the unmapped tree when there is one, else the target
    tree when there is one; with none of the three they return the deleted
    status and the lost status. *)
Theorem getStatus_preference (s uo tg : option FeatureNode.t)
    (m u g : FeatureNode.t) :
  let get_remap := ResultFeatureTrees.getRemapStatus in
  let get_target := ResultFeatureTrees.getTargetStatus in
  (get_remap (ResultFeatureTrees.mk s (Some m) uo tg)
     = FeatureNode.fRemapStatus m
   /\ get_remap (ResultFeatureTrees.mk s None (Some u) tg)
      = FeatureNode.fRemapStatus u
   /\ get_remap (ResultFeatureTrees.mk s None None (Some g))
      = FeatureNode.fRemapStatus g
   /\ get_remap (ResultFeatureTrees.mk s None None None)
      = REMAP_STATUS_DELETED)
  /\ (get_target (ResultFeatureTrees.mk s (Some m) uo tg)
        = FeatureNode.fTargetStatus m
      /\ get_target (ResultFeatureTrees.mk s None (Some u) tg)
         = FeatureNode.fTargetStatus u
      /\ get_target (ResultFeatureTrees.mk s None None (Some g))
         = FeatureNode.fTargetStatus g
      /\ get_target (ResultFeatureTrees.mk s None None None)
         = TARGET_STATUS_LOST).
Proof. repeat split. Qed.

(** C9: [getNumMappings] reads the mapped tree when there is one, else the
    unmapped tree when there is one, else returns 0; the target tree has no
    influence on the result. *)
Theorem getNumMappings_preference (s uo tg tg' : option FeatureNode.t)
    (m u : FeatureNode.t) :
  let get := ResultFeatureTrees.getNumMappings in
  get (ResultFeatureTrees.mk s (Some m) uo tg) = FeatureNode.fNumMappings m
  /\ get (ResultFeatureTrees.mk s None (Some u) tg)
     = FeatureNode.fNumMappings u
  /\ get (ResultFeatureTrees.mk s None None tg) = 0
  /\ (forall r : ResultFeatureTrees.t,
        get (ResultFeatureTrees.mk (ResultFeatureTrees.src r)
               (ResultFeatureTrees.mapped r) (ResultFeatureTrees.unmapped r)
               tg')
        = get r).
Proof. repeat split. Qed.

Example getNumMappings_ignores_target :
  let g := FeatureNode.mk (mkGxfFeature "chr1" SOURCE_HAVANA GENE 0 9 "+" [])
                          [] REMAP_STATUS_FULL TARGET_STATUS_NEW 3 in
  let r := ResultFeatureTrees.mk None None None (Some g) in
  ResultFeatureTrees.getNumMappings r = 0
  /\ ResultFeatureTrees.getRemapStatus r = REMAP_STATUS_FULL
  /\ ResultFeatureTrees.getTargetStatus r = TARGET_STATUS_NEW.
Proof. repeat split. Qed.

(** ** Fanning a node operation out *)

Lemma onMapped_onUnmapped_fans_out f :
  fans_out f (fun r =>
    ResultFeatureTrees.onUnmapped f (ResultFeatureTrees.onMapped f r)).
Proof.
  intros [s [m|] [u|] tg]; repeat split.
Qed.

(** C5: each of [rsetRemapStatus], [setTargetStatus], [rsetTargetStatus],
    [rsetTargetStatusAttr], [setNumMappingsAttr] and [rsetRemapStatusAttr]
    applies the [FeatureNode] operation of the same name to whichever of
    the mapped and unmapped trees are present, and leaves the target tree
    and the [src] reference unchanged. *)
Theorem fan_out_frame `{FeatureNode.OutOfLine}
    (remapStatus : RemapStatus) (targetStatus : TargetStatus) :
  fans_out (FeatureNode.rsetRemapStatus remapStatus)
           (ResultFeatureTrees.rsetRemapStatus remapStatus)
  /\ fans_out (FeatureNode.setTargetStatus targetStatus)
              (ResultFeatureTrees.setTargetStatus targetStatus)
  /\ fans_out (FeatureNode.rsetTargetStatus targetStatus)
              (ResultFeatureTrees.rsetTargetStatus targetStatus)
  /\ fans_out FeatureNode.rsetTargetStatusAttr
              ResultFeatureTrees.rsetTargetStatusAttr
  /\ fans_out FeatureNode.setNumMappingsAttr
              ResultFeatureTrees.setNumMappingsAttr
  /\ fans_out FeatureNode.rsetRemapStatusAttr
              ResultFeatureTrees.rsetRemapStatusAttr.
Proof. repeat split; apply onMapped_onUnmapped_fans_out. Qed.

(** ** Uniform status over the fragments of a feature *)

Lemma setRemapStatus_all (s : RemapStatus) (l : FeatureNodeVector) :
  Forall (fun n => FeatureNode.fRemapStatus n = s)
         (List.map (FeatureNode.setRemapStatus s) l)
  /\ Forall2 same_but_remapStatus l (List.map (FeatureNode.setRemapStatus s) l).
Proof.
  induction l as [|n l [IH1 IH2]]; simpl; split; constructor; try done.
Qed.

(** C10: after [setRemapStatus(srcSeqInMapping)] every node of the mapped
    collection and every node of the unmapped collection carries the one
    status that [calcRemapStatus(srcSeqInMapping)] returned on the feature
    as it was before the assignments; the nodes are otherwise the same and
    in the same positions. *)
Theorem setRemapStatus_uniform `{TransMappedFeature.OutOfLine}
    (srcSeqInMapping : bool) (f : TransMappedFeature.t) :
  let remapStatus := TransMappedFeature.calcRemapStatus srcSeqInMapping f in
  let f' := TransMappedFeature.setRemapStatus srcSeqInMapping f in
  Forall (fun n => FeatureNode.fRemapStatus n = remapStatus)
         (TransMappedFeature.mapped f' ++ TransMappedFeature.unmapped f')
  /\ Forall2 same_but_remapStatus
             (TransMappedFeature.mapped f) (TransMappedFeature.mapped f')
  /\ Forall2 same_but_remapStatus
             (TransMappedFeature.unmapped f) (TransMappedFeature.unmapped f')
  /\ TransMappedFeature.src f' = TransMappedFeature.src f.
Proof.
  simpl. rewrite Forall_app.
  repeat split; apply setRemapStatus_all.
Qed.

(** ** Attaching a child *)

Lemma addChild_returns (h : Linked.store) (p n : Linked.addr)
    (pn nn : Linked.FeatureNode) :
  h !! p = Some pn -> h !! n = Some nn -> Linked.fParent nn = None ->
  Linked.addChild p n h
  = Returns (alter (Linked.set_parent p) n (alter (Linked.push_child n) p h)).
Proof.
  intros Hp Hn Hnone. unfold Linked.addChild. rewrite Hn, Hp.
  by rewrite bool_decide_eq_true_2.
Qed.

(** C3: when [n] has no parent, [p.addChild(n)] returns normally, [n] is
    the last element of [p]'s child vector after the children [p] had, in
    their order, and [n]'s parent is [p]; no other node changes.  When [n]
    has a parent the assertion fails. *)
Theorem addChild_links (h : Linked.store) (p n : Linked.addr)
    (pn nn : Linked.FeatureNode) :
  h !! p = Some pn ->
  h !! n = Some nn ->
  (Linked.fParent nn = None ->
   exists h',
     Linked.addChild p n h = Returns h'
     /\ Linked.fChildren <$> h' !! p = Some (Linked.fChildren pn ++ [n])
     /\ Linked.fParent <$> h' !! n = Some (Some p)
     /\ (forall a, a <> p -> a <> n -> h' !! a = h !! a)
     /\ dom h' = dom h)
  /\ (Linked.fParent nn <> None ->
      Linked.addChild p n h = AssertionFailed).
Proof.
  intros Hp Hn. split.
  - intros Hnone. eexists. split; [by eapply addChild_returns|].
    repeat split.
    + destruct (decide (n = p)) as [->|Hne].
      * rewrite lookup_alter_eq, lookup_alter_eq, Hp. done.
      * rewrite lookup_alter_ne by done. rewrite lookup_alter_eq, Hp. done.
    + rewrite lookup_alter_eq.
      destruct (decide (p = n)) as [->|Hne].
      * rewrite lookup_alter_eq, Hn. done.
      * rewrite lookup_alter_ne by done. rewrite Hn. done.
    + intros a Hap Han. by rewrite !lookup_alter_ne.
    + by rewrite !dom_alter_L.
  - intros Hsome. unfold Linked.addChild. rewrite Hn, Hp.
    by rewrite bool_decide_eq_false_2.
Qed.

Lemma addChild_links_witness :
  (exists h',
     Linked.addChild 1%positive 2%positive linked_example = Returns h'
     /\ Linked.fChildren <$> h' !! 1%positive = Some [3%positive; 2%positive]
     /\ Linked.fParent <$> h' !! 2%positive = Some (Some 1%positive)
     /\ (forall a, a <> 1%positive -> a <> 2%positive ->
                   h' !! a = linked_example !! a)
     /\ dom h' = dom linked_example)
  /\ Linked.addChild 1%positive 3%positive linked_example = AssertionFailed.
Proof.
  split.
  - apply (addChild_links linked_example 1%positive 2%positive _ _
             eq_refl eq_refl).
    reflexivity.
  - apply (addChild_links linked_example 1%positive 3%positive _ _
             eq_refl eq_refl).
    discriminate.
Defined.

(** A node attached to itself: the two assignments land on the one node. *)
Example addChild_self :
  exists h',
    Linked.addChild 2%positive 2%positive linked_example = Returns h'
    /\ Linked.fChildren <$> h' !! 2%positive = Some [2%positive]
    /\ Linked.fParent <$> h' !! 2%positive = Some (Some 2%positive).
Proof. eexists. repeat split. Qed.

(** ** Sequence-region headers *)

Section SeqRegions.
Import AnnotationSet.

Lemma checkRecord_first (s : string) (a : t) :
  s ∉ fSeqRegionsWritten a ->
  checkRecordSeqRegionWritten s a
  = (false, mk (fIdFeatureMap a) (fNameFeatureMap a) (fGenes a)
               ({[s]} ∪ fSeqRegionsWritten a) (fGenomeSizes a)).
Proof.
  intros Hs. unfold checkRecordSeqRegionWritten.
  by rewrite bool_decide_eq_true_2.
Qed.

Lemma checkRecord_again (s : string) (a : t) :
  s ∈ fSeqRegionsWritten a -> checkRecordSeqRegionWritten s a = (true, a).
Proof.
  intros Hs. unfold checkRecordSeqRegionWritten.
  rewrite bool_decide_eq_false_2; [done|]. intros Hn. by apply Hn.
Qed.

Lemma checkRecord_written (s : string) (a : t) :
  fSeqRegionsWritten (checkRecordSeqRegionWritten s a).2
  = {[s]} ∪ fSeqRegionsWritten a.
Proof.
  destruct (decide (s ∈ fSeqRegionsWritten a)) as [Hs|Hs].
  - rewrite checkRecord_again by done. simpl.
    apply leibniz_equiv. intros x.
    rewrite elem_of_union, elem_of_singleton.
    split; [tauto|]. by intros [->|].
  - by rewrite checkRecord_first.
Qed.

Lemma checkRecordAll_grows (l : list string) (a : t) :
  fSeqRegionsWritten a ⊆ fSeqRegionsWritten (checkRecordAll l a).2.
Proof.
  revert a. induction l as [|s l IH]; intros a; simpl; [done|].
  pose proof (checkRecord_written s a) as Hw.
  destruct (checkRecordSeqRegionWritten s a) as [b a1]. simpl in Hw.
  specialize (IH a1). destruct (checkRecordAll l a1) as [bs a2].
  simpl in *. rewrite Hw in IH. intros x Hx. apply IH.
  apply elem_of_union. by right.
Qed.

Lemma seqRegionsOf_app (o1 o2 : GxfWriter) :
  seqRegionsOf (o1 ++ o2) = seqRegionsOf o1 ++ seqRegionsOf o2.
Proof. apply omap_app. Qed.

Lemma seqRegionsOf_features (fs : GxfFeatureVector) :
  seqRegionsOf (List.map FeatureLine fs) = [].
Proof. induction fs as [|f fs IH]; [done | exact IH]. Qed.

Lemma seqRegionsOf_outputFeature (g : FeatureNode.t) (out : GxfWriter) :
  seqRegionsOf (outputFeature g out) = seqRegionsOf out.
Proof.
  unfold outputFeature.
  by rewrite seqRegionsOf_app, seqRegionsOf_features, app_nil_r.
Qed.

Lemma writeGene_written (g : FeatureNode.t) (a : t) (out : GxfWriter) :
  fSeqid (FeatureNode.fFeature g) ∈ fSeqRegionsWritten a ->
  writeGene g (a, out) = (a, outputFeature g out).
Proof.
  intros Hin. unfold writeGene, outputMappedSeqRegionIfNeed. simpl.
  by rewrite checkRecord_again.
Qed.

Lemma writeGene_header (g : FeatureNode.t) (a : t) (out : GxfWriter) :
  fSeqid (FeatureNode.fFeature g) ∉ fSeqRegionsWritten a ->
  exists size,
    writeGene g (a, out)
    = ((checkRecordSeqRegionWritten (fSeqid (FeatureNode.fFeature g)) a).2,
       outputFeature g
         (out ++ [SeqRegionLine (fSeqid (FeatureNode.fFeature g)) size])).
Proof.
  intros Hin. unfold writeGene, outputMappedSeqRegionIfNeed. simpl.
  rewrite checkRecord_first by done. simpl. eauto.
Qed.

Lemma newlyRecorded_again (s : string) (rest : list string) (a : t) :
  s ∈ fSeqRegionsWritten a ->
  newlyRecorded (s :: rest) a = newlyRecorded rest a.
Proof.
  intros Hs. unfold newlyRecorded. simpl. rewrite checkRecord_again by done.
  by destruct (checkRecordAll rest a).
Qed.

Lemma newlyRecorded_first (s : string) (rest : list string) (a : t) :
  s ∉ fSeqRegionsWritten a ->
  newlyRecorded (s :: rest) a
  = s :: newlyRecorded rest (checkRecordSeqRegionWritten s a).2.
Proof.
  intros Hs. unfold newlyRecorded. simpl. rewrite checkRecord_first by done.
  simpl. by destruct (checkRecordAll rest _).
Qed.

(** In a run of calls, from any set of recorded ids: the ids for which the
    call returned false are distinct, and they are the ids of the run that
    had not been recorded. *)
Lemma newlyRecorded_distinct (seqids : list string) (a : t) :
  NoDup (newlyRecorded seqids a)
  /\ (forall s, s ∈ newlyRecorded seqids a <->
        s ∈ seqids /\ s ∉ fSeqRegionsWritten a).
Proof.
  revert a. induction seqids as [|s0 rest IH]; intros a.
  - split; [constructor|]. intros s. unfold newlyRecorded. simpl.
    rewrite !elem_of_nil. tauto.
  - destruct (decide (s0 ∈ fSeqRegionsWritten a)) as [Hin|Hin].
    + rewrite newlyRecorded_again by done.
      destruct (IH a) as [Hnd Hmem]. split; [done|].
      intros s. rewrite Hmem, elem_of_cons.
      split; [tauto|]. intros [[->|Hs] Hw]; [done | tauto].
    + rewrite newlyRecorded_first by done.
      destruct (IH (checkRecordSeqRegionWritten s0 a).2) as [Hnd Hmem].
      assert (Hmem' : forall s,
                s ∈ newlyRecorded rest (checkRecordSeqRegionWritten s0 a).2
                <-> s ∈ rest /\ s <> s0 /\ s ∉ fSeqRegionsWritten a).
      { intros s.
        rewrite Hmem, checkRecord_written, not_elem_of_union,
          elem_of_singleton.
        tauto. }
      split.
      * constructor; [|done]. rewrite Hmem'. tauto.
      * intros s. rewrite !elem_of_cons, Hmem'.
        destruct (decide (s = s0)) as [->|Hne]; tauto.
Qed.

(** The headers the loop of [write] adds, from any set of written ids and
    any output so far, are the ids for which the call returned false. *)
Lemma write_loop (genes : FeatureNodeVector) (a : t) (out : GxfWriter) :
  seqRegionsOf
    (fold_left (fun st gene => writeGene gene st) genes (a, out)).2
  = seqRegionsOf out
    ++ newlyRecorded ((fun g => fSeqid (FeatureNode.fFeature g)) <$> genes) a.
Proof.
  revert a out. induction genes as [|g genes IH]; intros a out.
  - unfold newlyRecorded. simpl. by rewrite app_nil_r.
  - rewrite fmap_cons. simpl fold_left.
    set (sg := fSeqid (FeatureNode.fFeature g)).
    destruct (decide (sg ∈ fSeqRegionsWritten a)) as [Hin|Hin].
    + rewrite writeGene_written, newlyRecorded_again by done.
      by rewrite IH, seqRegionsOf_outputFeature.
    + rewrite newlyRecorded_first by done.
      destruct (writeGene_header g a out Hin) as (size & ->).
      fold sg. rewrite IH, seqRegionsOf_outputFeature, seqRegionsOf_app.
      simpl. by rewrite <- app_assoc.
Qed.

End SeqRegions.

(** C6: on the first call with a sequence id that is not recorded yet,
    [checkRecordSeqRegionWritten] returns false and records the id; every
    later call with that id returns true, whatever ids were checked in
    between.  So in any run of calls the ids answered with false are
    pairwise distinct; the headers a [write] emits are those ids, at most
    one per sequence id, and two genes on one sequence id give exactly one
    header for it. *)
Theorem seqRegion_written_once :
  (forall (s : string) (a : AnnotationSet.t),
     s ∉ AnnotationSet.fSeqRegionsWritten a ->
     exists a',
       AnnotationSet.checkRecordSeqRegionWritten s a = (false, a')
       /\ AnnotationSet.fSeqRegionsWritten a'
          = {[s]} ∪ AnnotationSet.fSeqRegionsWritten a)
  /\ (forall (s : string) (a : AnnotationSet.t) (between : list string),
        let a1 := (AnnotationSet.checkRecordSeqRegionWritten s a).2 in
        let a2 := (AnnotationSet.checkRecordAll between a1).2 in
        (AnnotationSet.checkRecordSeqRegionWritten s a2).1 = true)
  /\ (forall (seqids : list string) (a : AnnotationSet.t),
        NoDup (AnnotationSet.newlyRecorded seqids a)
        /\ (forall s, s ∈ AnnotationSet.newlyRecorded seqids a <->
              s ∈ seqids /\ s ∉ AnnotationSet.fSeqRegionsWritten a))
  /\ (forall (a : AnnotationSet.t) (gxfFh : GxfWriter),
        AnnotationSet.seqRegionsOf (AnnotationSet.write a gxfFh).2
        = AnnotationSet.seqRegionsOf gxfFh
          ++ AnnotationSet.newlyRecorded
               ((fun g => fSeqid (FeatureNode.fFeature g))
                  <$> AnnotationSet.fGenes a) a)
  /\ (forall (a : AnnotationSet.t) (g1 g2 : FeatureNode.t),
        AnnotationSet.fGenes a = [g1; g2] ->
        fSeqid (FeatureNode.fFeature g1) = fSeqid (FeatureNode.fFeature g2) ->
        fSeqid (FeatureNode.fFeature g1)
          ∉ AnnotationSet.fSeqRegionsWritten a ->
        AnnotationSet.seqRegionsOf (AnnotationSet.write a []).2
        = [fSeqid (FeatureNode.fFeature g1)]).
Proof.
  split; [|split; [|split; [|split]]].
  - intros s a Hs. eexists. split; [by apply checkRecord_first|done].
  - intros s a between a1 a2.
    rewrite checkRecord_again; [done|].
    apply checkRecordAll_grows. unfold a1.
    rewrite checkRecord_written. apply elem_of_union. left.
    by apply elem_of_singleton.
  - apply newlyRecorded_distinct.
  - intros a gxfFh. apply write_loop.
  - intros a g1 g2 Hgenes Hsame Hnew. unfold AnnotationSet.write.
    rewrite write_loop, Hgenes. simpl.
    rewrite newlyRecorded_first by done.
    rewrite newlyRecorded_again; [done|].
    rewrite checkRecord_written, <- Hsame. apply elem_of_union. left.
    by apply elem_of_singleton.
Qed.

Lemma seqRegion_written_once_witness :
  (exists a',
     AnnotationSet.checkRecordSeqRegionWritten "chr1" two_genes_on_chr1
     = (false, a')
     /\ AnnotationSet.fSeqRegionsWritten a'
        = {["chr1"]} ∪ AnnotationSet.fSeqRegionsWritten two_genes_on_chr1)
  /\ AnnotationSet.seqRegionsOf (AnnotationSet.write two_genes_on_chr1 []).2
     = ["chr1"].
Proof.
  split.
  - apply (proj1 seqRegion_written_once "chr1" two_genes_on_chr1).
    apply not_elem_of_empty.
  - apply (proj2 (proj2 (proj2 (proj2 seqRegion_written_once)))
             two_genes_on_chr1 _ _ eq_refl eq_refl).
    apply not_elem_of_empty.
Defined.

Example write_two_genes_output :
  (AnnotationSet.write two_genes_on_chr1 []).2
  = [SeqRegionLine "chr1" None;
     FeatureLine (mkGxfFeature "chr1" SOURCE_HAVANA GENE 100 200 "+" []);
     FeatureLine (mkGxfFeature "chr1" SOURCE_HAVANA GENE 250 300 "+" [])].
Proof. vm_compute. reflexivity. Qed.

(** ** Status of a bounding feature *)

Lemma node_anyChild_Exists (set : list RemapStatus) (n : FeatureNode.t) :
  FeatureNode.anyChildWithRemapStatus set n = true
  <-> Exists (fun c => FeatureNode.fRemapStatus c ∈ set)
             (FeatureNode.fChildren n).
Proof.
  unfold FeatureNode.anyChildWithRemapStatus.
  induction (FeatureNode.fChildren n) as [|c cs IH]; simpl.
  - rewrite Exists_nil. split; [discriminate | tauto].
  - rewrite Exists_cons, orb_true_iff, IH, bool_decide_eq_true. tauto.
Qed.

Lemma node_allChild_Forall (set : list RemapStatus) (n : FeatureNode.t) :
  FeatureNode.allChildWithRemapStatus set n = true
  <-> Forall (fun c => FeatureNode.fRemapStatus c ∈ set)
             (FeatureNode.fChildren n).
Proof.
  unfold FeatureNode.allChildWithRemapStatus.
  induction (FeatureNode.fChildren n) as [|c cs IH]; simpl.
  - split; [constructor | done].
  - rewrite Forall_cons_iff, andb_true_iff, IH, bool_decide_eq_true. tauto.
Qed.

Lemma anyChild_Exists (set : list RemapStatus) (r : ResultFeatureTrees.t) :
  ResultFeatureTrees.anyChildWithRemapStatus set r = true
  <-> Exists (fun c => FeatureNode.fRemapStatus c ∈ set)
             (ResultFeatureTrees.children r).
Proof.
  unfold ResultFeatureTrees.anyChildWithRemapStatus,
    ResultFeatureTrees.children.
  rewrite Exists_app, orb_true_iff.
  destruct (ResultFeatureTrees.mapped r), (ResultFeatureTrees.unmapped r);
    simpl; rewrite ?node_anyChild_Exists, ?Exists_nil;
    intuition discriminate.
Qed.

Lemma allChild_Forall (set : list RemapStatus) (r : ResultFeatureTrees.t) :
  ResultFeatureTrees.allChildWithRemapStatus set r = true
  <-> Forall (fun c => FeatureNode.fRemapStatus c ∈ set)
             (ResultFeatureTrees.children r).
Proof.
  unfold ResultFeatureTrees.allChildWithRemapStatus,
    ResultFeatureTrees.children.
  rewrite Forall_app, andb_true_iff.
  destruct (ResultFeatureTrees.mapped r), (ResultFeatureTrees.unmapped r);
    simpl; rewrite ?node_allChild_Forall;
    intuition (done || constructor).
Qed.

Lemma childMapped_elem_of (c : FeatureNode.t) :
  FeatureNode.fRemapStatus c ∈ [REMAP_STATUS_FULL; REMAP_STATUS_PARTIAL]
  <-> childMapped c.
Proof.
  unfold childMapped. rewrite !elem_of_cons, elem_of_nil. tauto.
Qed.

Lemma no_child_mapped (r : ResultFeatureTrees.t) :
  Forall (fun c => ~ childMapped c) (ResultFeatureTrees.children r) ->
  ResultFeatureTrees.anyChildWithRemapStatus
    [REMAP_STATUS_FULL; REMAP_STATUS_PARTIAL] r = false.
Proof.
  intros Hnone. apply not_true_is_false. rewrite anyChild_Exists.
  rewrite Exists_exists. intros (c & Hc & Hm).
  rewrite Forall_forall in Hnone. apply (Hnone c Hc).
  by apply childMapped_elem_of.
Qed.

Lemma some_child_mapped (r : ResultFeatureTrees.t) :
  Exists childMapped (ResultFeatureTrees.children r) ->
  ResultFeatureTrees.anyChildWithRemapStatus
    [REMAP_STATUS_FULL; REMAP_STATUS_PARTIAL] r = true.
Proof.
  intros Hsome. apply anyChild_Exists.
  eapply Exists_impl; [|exact Hsome].
  intros c Hc. by apply childMapped_elem_of.
Qed.

(** C2: with [srcSeqInMapping] true, [calcBoundingFeatureRemapStatus] gives
    fully mapped when the feature has children and all are fully mapped,
    partially mapped when some child mapped and some did not, and deleted
    when no child mapped; with [srcSeqInMapping] false and no child mapped
    it gives the excluded variant, not deleted.
    [setBoundingFeatureRemapStatus] sets the computed status on whichever
    of the mapped and unmapped trees are present and changes nothing
    else: each tree that is present then carries the status computed on
    the result as it was before, with its record, children and other
    fields as they were; a tree that is absent stays absent;
    [getRemapStatus] then returns the computed status when one of the two
    trees is present; [src] and the target tree are as before. *)
Theorem boundingFeatureRemapStatus (r : ResultFeatureTrees.t) :
  let cs := ResultFeatureTrees.children r in
  let calc := ResultFeatureTrees.calcBoundingFeatureRemapStatus in
  (cs <> [] ->
   Forall (fun c => FeatureNode.fRemapStatus c = REMAP_STATUS_FULL) cs ->
   calc true r = REMAP_STATUS_FULL)
  /\ (Exists childMapped cs ->
      Exists (fun c => ~ childMapped c) cs ->
      calc true r = REMAP_STATUS_PARTIAL)
  /\ (Forall (fun c => ~ childMapped c) cs ->
      calc true r = REMAP_STATUS_DELETED)
  /\ (Forall (fun c => ~ childMapped c) cs ->
      calc false r = REMAP_STATUS_NO_SEQ_MAP
      /\ calc false r <> REMAP_STATUS_DELETED)
  /\ (forall srcSeqInMapping,
        let r' := ResultFeatureTrees.setBoundingFeatureRemapStatus
                    srcSeqInMapping r in
        let set := FeatureNode.setRemapStatus (calc srcSeqInMapping r) in
        ResultFeatureTrees.src r' = ResultFeatureTrees.src r
        /\ ResultFeatureTrees.mapped r' = set <$> ResultFeatureTrees.mapped r
        /\ ResultFeatureTrees.unmapped r'
           = set <$> ResultFeatureTrees.unmapped r
        /\ ResultFeatureTrees.target r' = ResultFeatureTrees.target r)
  /\ (forall srcSeqInMapping,
        let r' := ResultFeatureTrees.setBoundingFeatureRemapStatus
                    srcSeqInMapping r in
        (forall m, ResultFeatureTrees.mapped r = Some m ->
           exists m',
             ResultFeatureTrees.mapped r' = Some m'
             /\ FeatureNode.fRemapStatus m' = calc srcSeqInMapping r
             /\ same_but_remapStatus m m')
        /\ (forall u, ResultFeatureTrees.unmapped r = Some u ->
              exists u',
                ResultFeatureTrees.unmapped r' = Some u'
                /\ FeatureNode.fRemapStatus u' = calc srcSeqInMapping r
                /\ same_but_remapStatus u u')
        /\ (ResultFeatureTrees.mapped r = None ->
            ResultFeatureTrees.mapped r' = None)
        /\ (ResultFeatureTrees.unmapped r = None ->
            ResultFeatureTrees.unmapped r' = None)
        /\ (is_Some (ResultFeatureTrees.mapped r)
            \/ is_Some (ResultFeatureTrees.unmapped r) ->
            ResultFeatureTrees.getRemapStatus r' = calc srcSeqInMapping r)).
Proof.
  intros cs calc. subst calc.
  split; [|split; [|split; [|split; [|split]]]].
  - unfold ResultFeatureTrees.calcBoundingFeatureRemapStatus.
    intros Hne Hall.
    rewrite some_child_mapped.
    + simpl. replace (ResultFeatureTrees.allChildWithRemapStatus _ r)
        with true; [done|].
      symmetry. apply allChild_Forall.
      eapply Forall_impl; [|exact Hall].
      intros c Hc. simpl in Hc. rewrite Hc. by apply list_elem_of_singleton.
    + fold cs. destruct cs as [|c cs']; [done|].
      apply Exists_cons. left. left. by inversion Hall.
  - unfold ResultFeatureTrees.calcBoundingFeatureRemapStatus.
    intros Hsome Hnot.
    rewrite some_child_mapped by done. simpl.
    replace (ResultFeatureTrees.allChildWithRemapStatus _ r)
      with false; [done|].
    symmetry. apply not_true_is_false. rewrite allChild_Forall.
    intros Hall. apply Exists_exists in Hnot as (c & Hc & Hn).
    rewrite Forall_forall in Hall. apply Hn. left.
    specialize (Hall c Hc). by apply list_elem_of_singleton in Hall.
  - unfold ResultFeatureTrees.calcBoundingFeatureRemapStatus.
    intros Hnone. by rewrite no_child_mapped.
  - unfold ResultFeatureTrees.calcBoundingFeatureRemapStatus.
    intros Hnone. by rewrite no_child_mapped.
  - intros b. apply onMapped_onUnmapped_fans_out.
  - intros b. unfold ResultFeatureTrees.setBoundingFeatureRemapStatus.
    generalize (ResultFeatureTrees.calcBoundingFeatureRemapStatus b r).
    intros st.
    destruct r as [s [m|] [u|] tg]; simpl;
      (split; [|split; [|split; [|split]]]);
      try (intros ? [= <-]; eexists; split; [reflexivity|];
           by repeat split);
      try done;
      intros [[? Hsome]|[? Hsome]]; done.
Qed.

Lemma boundingFeatureRemapStatus_witness :
  ResultFeatureTrees.calcBoundingFeatureRemapStatus true
    (gene_result [REMAP_STATUS_FULL; REMAP_STATUS_FULL] [])
  = REMAP_STATUS_FULL
  /\ ResultFeatureTrees.calcBoundingFeatureRemapStatus true
       (gene_result [REMAP_STATUS_FULL] [REMAP_STATUS_DELETED])
     = REMAP_STATUS_PARTIAL
  /\ ResultFeatureTrees.calcBoundingFeatureRemapStatus true
       (gene_result [] [REMAP_STATUS_DELETED; REMAP_STATUS_DELETED])
     = REMAP_STATUS_DELETED
  /\ (ResultFeatureTrees.calcBoundingFeatureRemapStatus false
        (gene_result [] [REMAP_STATUS_DELETED; REMAP_STATUS_DELETED])
      = REMAP_STATUS_NO_SEQ_MAP
      /\ ResultFeatureTrees.calcBoundingFeatureRemapStatus false
           (gene_result [] [REMAP_STATUS_DELETED; REMAP_STATUS_DELETED])
         <> REMAP_STATUS_DELETED)
  /\ (let r' := ResultFeatureTrees.setBoundingFeatureRemapStatus true
                  (gene_result [REMAP_STATUS_FULL] [REMAP_STATUS_DELETED]) in
      FeatureNode.fRemapStatus <$> ResultFeatureTrees.mapped r'
      = Some REMAP_STATUS_PARTIAL
      /\ FeatureNode.fRemapStatus <$> ResultFeatureTrees.unmapped r'
         = Some REMAP_STATUS_PARTIAL
      /\ ResultFeatureTrees.getRemapStatus r' = REMAP_STATUS_PARTIAL).
Proof.
  destruct (boundingFeatureRemapStatus
              (gene_result [REMAP_STATUS_FULL; REMAP_STATUS_FULL] []))
    as (Hfull & _).
  destruct (boundingFeatureRemapStatus
              (gene_result [REMAP_STATUS_FULL] [REMAP_STATUS_DELETED]))
    as (_ & Hpartial & _ & _ & _ & Hset).
  destruct (boundingFeatureRemapStatus
              (gene_result [] [REMAP_STATUS_DELETED; REMAP_STATUS_DELETED]))
    as (_ & _ & Hdeleted & Hexcluded & _).
  assert (Hcalc : ResultFeatureTrees.calcBoundingFeatureRemapStatus true
                    (gene_result [REMAP_STATUS_FULL] [REMAP_STATUS_DELETED])
                  = REMAP_STATUS_PARTIAL).
  { apply Hpartial.
    - apply Exists_cons_hd. left. reflexivity.
    - apply Exists_cons_tl, Exists_cons_hd. intros [H|H]; discriminate H. }
  split; [|split; [|split; [|split]]].
  - apply Hfull; [discriminate | repeat constructor].
  - exact Hcalc.
  - apply Hdeleted. repeat constructor; intros [H|H]; discriminate H.
  - apply Hexcluded. repeat constructor; intros [H|H]; discriminate H.
  - intros r'.
    destruct (Hset true) as (Hm & Hu & _ & _ & Hget).
    destruct (Hm _ eq_refl) as (m' & Hm' & Hstm & _).
    destruct (Hu _ eq_refl) as (u' & Hu' & Hstu & _).
    subst r'. rewrite Hm', Hu', Hget by (left; by eexists). simpl.
    by rewrite Hstm, Hstu, Hcalc.
Defined.

Example setBoundingFeatureRemapStatus_example :
  let r := ResultFeatureTrees.setBoundingFeatureRemapStatus true
             (gene_result [REMAP_STATUS_FULL] [REMAP_STATUS_DELETED]) in
  FeatureNode.fRemapStatus <$> ResultFeatureTrees.mapped r
  = Some REMAP_STATUS_PARTIAL
  /\ FeatureNode.fRemapStatus <$> ResultFeatureTrees.unmapped r
     = Some REMAP_STATUS_PARTIAL
  /\ ResultFeatureTrees.getRemapStatus r = REMAP_STATUS_PARTIAL.
Proof. repeat split. Qed.

(** ** Lookup by id and by name *)

Lemma getFeatureByKey_several (key chk : string)
    (featureMap : AnnotationSet.FeatureMap) (fs : FeatureNodeVector) :
  featureMap !! key = Some fs ->
  (1 < length fs)%nat ->
  AnnotationSet.getFeatureByKey key featureMap chk
  = Returns
      (List.find
         (fun f => bool_decide (fSeqid (FeatureNode.fFeature f) <> chk)) fs).
Proof.
  intros Hkey Hlen. unfold AnnotationSet.getFeatureByKey. rewrite Hkey.
  destruct fs as [|f1 [|f2 fs]]; simpl in Hlen; [lia | lia | done].
Qed.

Lemma getFeatureByKey_par_lookup (key chk : string)
    (featureMap : AnnotationSet.FeatureMap) :
  par_lookup featureMap key chk
             (AnnotationSet.getFeatureByKey key featureMap chk).
Proof.
  unfold par_lookup. split; [|split; [|split]].
  - unfold AnnotationSet.getFeatureByKey.
    destruct (featureMap !! key) as [[|f1 [|f2 fs]]|]; eauto.
  - intros Hkey. unfold AnnotationSet.getFeatureByKey. by rewrite Hkey.
  - intros f Hkey. unfold AnnotationSet.getFeatureByKey. by rewrite Hkey.
  - intros fs Hkey Hlen.
    rewrite (getFeatureByKey_several key chk featureMap fs Hkey Hlen).
    split; [|split; [|split]].
    + intros f Hres. injection Hres as Hfind.
      apply find_some in Hfind as [Hin Hne].
      split; [by apply list_elem_of_In|].
      by apply bool_decide_eq_true in Hne.
    + intros Hall. f_equal.
      destruct (List.find _ fs) as [f|] eqn:Hfind; [|done].
      apply find_some in Hfind as [Hin Hne].
      apply bool_decide_eq_true in Hne. destruct Hne.
      by apply Hall, list_elem_of_In.
    + intros f1 f2 -> H1 H2. simpl.
      rewrite bool_decide_eq_false_2 by (intros Hn; by apply Hn).
      by rewrite bool_decide_eq_true_2.
    + intros f1 f2 -> H1 H2. simpl. by rewrite bool_decide_eq_true_2.
Qed.

(** C4: [getFeatureById] and [getFeatureByName] look the key up in the id
    index and in the name index; with more than one entry under the key
    the result is the entry whose sequence id differs from
    [seqIdForParCheck]; an absent key or a failed disambiguation gives the
    empty result, and the call always returns normally. *)
Theorem getFeature_par_lookup (a : AnnotationSet.t)
    (key seqIdForParCheck : string) :
  par_lookup (AnnotationSet.fIdFeatureMap a) key seqIdForParCheck
             (AnnotationSet.getFeatureById key seqIdForParCheck a)
  /\ par_lookup (AnnotationSet.fNameFeatureMap a) key seqIdForParCheck
                (AnnotationSet.getFeatureByName key seqIdForParCheck a).
Proof. split; apply getFeatureByKey_par_lookup. Qed.

Lemma getFeature_par_lookup_witness :
  AnnotationSet.getFeatureById "G1" "chrX" par_set
  = Returns (Some (par_gene "chrY"))
  /\ AnnotationSet.getFeatureById "G1" "chrY" par_set
     = Returns (Some (par_gene "chrX"))
  /\ AnnotationSet.getFeatureByName "N1" "chrX" par_set
     = Returns (Some (par_gene "chrY"))
  /\ AnnotationSet.getFeatureById "G2" "chrX" par_set = Returns None.
Proof.
  split; [|split; [|split]].
  - destruct (getFeature_par_lookup par_set "G1" "chrX")
      as [(_ & _ & _ & Hfs) _].
    destruct (Hfs [par_gene "chrX"; par_gene "chrY"] eq_refl)
      as (_ & _ & Hsecond & _); [simpl; lia|].
    apply (Hsecond _ _ eq_refl); [reflexivity | discriminate].
  - destruct (getFeature_par_lookup par_set "G1" "chrY")
      as [(_ & _ & _ & Hfs) _].
    destruct (Hfs [par_gene "chrX"; par_gene "chrY"] eq_refl)
      as (_ & _ & _ & Hfirst); [simpl; lia|].
    apply (Hfirst _ _ eq_refl); [discriminate | reflexivity].
  - destruct (getFeature_par_lookup par_set "N1" "chrX")
      as [_ (_ & _ & _ & Hfs)].
    destruct (Hfs [par_gene "chrX"; par_gene "chrY"] eq_refl)
      as (_ & _ & Hsecond & _); [simpl; lia|].
    apply (Hsecond _ _ eq_refl); [reflexivity | discriminate].
  - destruct (getFeature_par_lookup par_set "G2" "chrX")
      as [(_ & Habsent & _) _].
    apply Habsent. reflexivity.
Defined.

(** ** Exon similarity *)

Section Sums.
Context {A : Type}.

Lemma sumZ_ext (f g : A -> Z) (l : list A) :
  (forall x, x ∈ l -> f x = g x) -> sumZ f l = sumZ g l.
Proof.
  induction l as [|x l IH]; intros Hfg; simpl; [done|].
  rewrite (Hfg x) by apply list_elem_of_here.
  rewrite IH; [done|]. intros y Hy. apply Hfg. by apply list_elem_of_further.
Qed.

Lemma sumZ_zero (f : A -> Z) (l : list A) :
  (forall x, x ∈ l -> f x = 0) -> sumZ f l = 0.
Proof.
  induction l as [|x l IH]; intros Hf; simpl; [done|].
  rewrite (Hf x) by apply list_elem_of_here.
  rewrite IH; [done|]. intros y Hy. apply Hf. by apply list_elem_of_further.
Qed.

Lemma sumZ_add (f g : A -> Z) (l : list A) :
  sumZ (fun x => f x + g x) l = sumZ f l + sumZ g l.
Proof. induction l as [|x l IH]; simpl; lia. Qed.

Lemma sumZ_perm (f : A -> Z) (l l' : list A) :
  l ≡ₚ l' -> sumZ f l = sumZ f l'.
Proof. induction 1; simpl; lia. Qed.

Lemma sumZ_pos (f : A -> Z) (l : list A) :
  l <> [] -> Forall (fun x => 0 < f x) l -> 0 < sumZ f l.
Proof.
  intros Hne Hpos. destruct l as [|x l]; [done|]. clear Hne.
  revert x Hpos. induction l as [|y l IH]; intros x Hpos; simpl.
  - inversion Hpos; subst. lia.
  - inversion Hpos as [|? ? Hx Hrest]; subst.
    specialize (IH y Hrest). simpl in IH. lia.
Qed.
End Sums.

Lemma sumZ_fmap {A B : Type} (f : A -> Z) (g : B -> A) (l : list B) :
  sumZ f (g <$> l) = sumZ (fun x => f (g x)) l.
Proof. induction l as [|x l IH]; simpl; [done | by rewrite <- IH]. Qed.

Lemma sumZ_swap {A B : Type} (g : A -> B -> Z) (l1 : list A) (l2 : list B) :
  sumZ (fun x => sumZ (g x) l2) l1
  = sumZ (fun y => sumZ (fun x => g x y) l1) l2.
Proof.
  induction l1 as [|x l1 IH]; simpl.
  - symmetry. by apply sumZ_zero.
  - rewrite IH. symmetry. apply sumZ_add.
Qed.

Lemma span_overlap_sym (s1 s2 : ExonSpan) :
  span_overlap s1 s2 = span_overlap s2 s1.
Proof.
  unfold span_overlap.
  rewrite (bool_decide_ext (sSeqid s1 = sSeqid s2) (sSeqid s2 = sSeqid s1))
    by (split; congruence).
  rewrite (bool_decide_ext (sStrand s1 = sStrand s2) (sStrand s2 = sStrand s1))
    by (split; congruence).
  by rewrite Z.min_comm, (Z.max_comm (sStart s1)).
Qed.

Lemma span_overlap_self (s : ExonSpan) :
  sStart s < sEnd s -> span_overlap s s = span_size s.
Proof.
  intros Hpos. unfold span_overlap, span_size.
  rewrite !bool_decide_eq_true_2 by done. simpl. lia.
Qed.

Lemma span_disjoint_overlap (s1 s2 : ExonSpan) :
  span_disjoint s1 s2 -> span_overlap s1 s2 = 0.
Proof.
  unfold span_disjoint, span_overlap. intros Hd.
  destruct (bool_decide (sSeqid s1 = sSeqid s2)) eqn:Hq; [|done].
  destruct (bool_decide (sStrand s1 = sStrand s2)) eqn:Hs; [|done].
  apply bool_decide_eq_true in Hq. apply bool_decide_eq_true in Hs.
  simpl. destruct Hd as [Hd|[Hd|Hd]]; [done | done | lia].
Qed.

Lemma span_disjoint_sym (s1 s2 : ExonSpan) :
  span_disjoint s1 s2 -> span_disjoint s2 s1.
Proof. unfold span_disjoint. intuition congruence. Qed.

(** In a well-formed exon set an exon overlaps the set in exactly its own
    bases. *)
Lemma overlap_with_own_set (l : list ExonSpan) (s : ExonSpan) :
  exons_well_formed l -> s ∈ l -> sumZ (span_overlap s) l = span_size s.
Proof.
  intros [Hpos Hdis]. revert Hpos. induction Hdis as [|x l Hx Hdis IH].
  - intros _ Hs. by apply elem_of_nil in Hs.
  - intros Hpos Hs. inversion Hpos as [|? ? Hxpos Hlpos]; subst. simpl.
    rewrite Forall_forall in Hx.
    destruct (decide (s ∈ l)) as [Hin|Hnotin].
    + rewrite IH by done.
      rewrite span_disjoint_overlap; [lia|].
      apply span_disjoint_sym, Hx. by apply list_elem_of_In.
    + apply elem_of_cons in Hs as [->|Hs]; [|done].
      rewrite span_overlap_self by done.
      rewrite sumZ_zero; [lia|].
      intros y Hy. apply span_disjoint_overlap, Hx. by apply list_elem_of_In.
Qed.

Lemma getTranscriptExonSize_spans (trans : FeatureNode.t) :
  FeatureNode.getTranscriptExonSize trans = sumZ span_size (exonSpans trans).
Proof. unfold exonSpans. by rewrite sumZ_fmap. Qed.

Lemma getOverlapAmount_spans (trans1 trans2 : FeatureNode.t) :
  FeatureNode.getOverlapAmount trans1 trans2
  = sumZ (fun s1 => sumZ (span_overlap s1) (exonSpans trans2))
         (exonSpans trans1).
Proof.
  unfold exonSpans. rewrite sumZ_fmap.
  apply sumZ_ext. intros e1 _. by rewrite sumZ_fmap.
Qed.

Lemma getOverlapAmount_sym (trans1 trans2 : FeatureNode.t) :
  FeatureNode.getOverlapAmount trans1 trans2
  = FeatureNode.getOverlapAmount trans2 trans1.
Proof.
  rewrite !getOverlapAmount_spans, sumZ_swap.
  apply sumZ_ext. intros s2 _. apply sumZ_ext. intros s1 _.
  apply span_overlap_sym.
Qed.

Lemma exonSpans_nil (trans : FeatureNode.t) :
  exonSpans trans = [] <-> FeatureNode.exons trans = [].
Proof.
  unfold exonSpans. destruct (FeatureNode.exons trans); simpl; split; done.
Qed.

(** The similarity when both transcripts have exons. *)
Lemma getExonSimilarity_exons (trans1 trans2 : FeatureNode.t) :
  FeatureNode.exons trans1 <> [] ->
  FeatureNode.exons trans2 <> [] ->
  FeatureNode.getExonSimilarity trans1 trans2
  = if bool_decide (fSeqid (FeatureNode.fFeature trans1)
                    = fSeqid (FeatureNode.fFeature trans2))
    then (Qc_of_Z (FeatureNode.getOverlapAmount trans1 trans2)
          / Qc_of_Z (Z.max (FeatureNode.getTranscriptExonSize trans1)
                           (FeatureNode.getTranscriptExonSize trans2)))%Qc
    else 0%Qc.
Proof.
  intros H1 H2. unfold FeatureNode.getExonSimilarity.
  destruct (FeatureNode.exons trans1); [done|].
  destruct (FeatureNode.exons trans2); done.
Qed.

Lemma getExonSimilarity_no_exons (trans1 trans2 : FeatureNode.t) :
  FeatureNode.exons trans1 = [] \/ FeatureNode.exons trans2 = [] ->
  FeatureNode.getExonSimilarity trans1 trans2 = 0%Qc.
Proof.
  unfold FeatureNode.getExonSimilarity.
  intros [-> | ->]; [done|]. by destruct (FeatureNode.exons trans1).
Qed.

(** C7: [getExonSimilarity] gives the same value with its two transcripts
    exchanged; it is 1 for two transcripts on one sequence with the same
    well-formed, non-empty exon set; it is 0 when either transcript has no
    exons, when the transcripts are on different sequences, and when no
    exon of one shares a base with an exon of the other. *)
Theorem getExonSimilarity_props (trans1 trans2 : FeatureNode.t) :
  let sim := FeatureNode.getExonSimilarity in
  sim trans1 trans2 = sim trans2 trans1
  /\ (exonSpans trans1 ≡ₚ exonSpans trans2 ->
      exonSpans trans1 <> [] ->
      exons_well_formed (exonSpans trans1) ->
      fSeqid (FeatureNode.fFeature trans1)
      = fSeqid (FeatureNode.fFeature trans2) ->
      sim trans1 trans2 = 1%Qc)
  /\ (FeatureNode.exons trans1 = [] \/ FeatureNode.exons trans2 = [] ->
      sim trans1 trans2 = 0%Qc)
  /\ (fSeqid (FeatureNode.fFeature trans1)
      <> fSeqid (FeatureNode.fFeature trans2) ->
      sim trans1 trans2 = 0%Qc)
  /\ ((forall s1 s2, s1 ∈ exonSpans trans1 -> s2 ∈ exonSpans trans2 ->
                     span_disjoint s1 s2) ->
      sim trans1 trans2 = 0%Qc).
Proof.
  intros sim. subst sim. split; [|split; [|split; [|split]]].
  - destruct (decide (FeatureNode.exons trans1 = [])) as [H1|H1].
    { rewrite !getExonSimilarity_no_exons; auto. }
    destruct (decide (FeatureNode.exons trans2 = [])) as [H2|H2].
    { rewrite !getExonSimilarity_no_exons; auto. }
    rewrite !getExonSimilarity_exons by done.
    rewrite (bool_decide_ext
               (fSeqid (FeatureNode.fFeature trans2)
                = fSeqid (FeatureNode.fFeature trans1))
               (fSeqid (FeatureNode.fFeature trans1)
                = fSeqid (FeatureNode.fFeature trans2)))
      by (split; congruence).
    by rewrite getOverlapAmount_sym, Z.max_comm.
  - intros Hperm Hne Hwf Hseq.
    assert (H1 : FeatureNode.exons trans1 <> []).
    { intros H. by apply exonSpans_nil in H. }
    assert (H2 : FeatureNode.exons trans2 <> []).
    { intros H. apply exonSpans_nil in H. rewrite H in Hperm.
      by apply Permutation_nil_r in Hperm. }
    rewrite getExonSimilarity_exons by done.
    rewrite bool_decide_eq_true_2 by done.
    assert (Hov : FeatureNode.getOverlapAmount trans1 trans2
                  = FeatureNode.getTranscriptExonSize trans1).
    { rewrite getOverlapAmount_spans, getTranscriptExonSize_spans.
      apply sumZ_ext. intros s Hs.
      rewrite <- (sumZ_perm _ _ _ Hperm).
      by apply overlap_with_own_set. }
    assert (Hsz : FeatureNode.getTranscriptExonSize trans2
                  = FeatureNode.getTranscriptExonSize trans1).
    { rewrite !getTranscriptExonSize_spans. symmetry. by apply sumZ_perm. }
    assert (Hpos : 0 < FeatureNode.getTranscriptExonSize trans1).
    { rewrite getTranscriptExonSize_spans. apply sumZ_pos; [done|].
      destruct Hwf as [Hpos _]. eapply Forall_impl; [|exact Hpos].
      intros s Hs. unfold span_size. simpl in Hs. lia. }
    rewrite Hov, Hsz, Z.max_id. unfold Qcdiv. apply Qcmult_inv_r.
    rewrite <- Z2Qc_inj_0. intros Heq. apply Z2Qc_inj in Heq. lia.
  - apply getExonSimilarity_no_exons.
  - intros Hseq.
    destruct (decide (FeatureNode.exons trans1 = [])) as [H1|H1].
    { rewrite getExonSimilarity_no_exons; auto. }
    destruct (decide (FeatureNode.exons trans2 = [])) as [H2|H2].
    { rewrite getExonSimilarity_no_exons; auto. }
    rewrite getExonSimilarity_exons by done.
    by rewrite bool_decide_eq_false_2.
  - intros Hdis.
    destruct (decide (FeatureNode.exons trans1 = [])) as [H1|H1].
    { rewrite getExonSimilarity_no_exons; auto. }
    destruct (decide (FeatureNode.exons trans2 = [])) as [H2|H2].
    { rewrite getExonSimilarity_no_exons; auto. }
    rewrite getExonSimilarity_exons by done.
    case_bool_decide; [|done].
    replace (FeatureNode.getOverlapAmount trans1 trans2) with 0.
    + rewrite Z2Qc_inj_0. unfold Qcdiv. apply Qcmult_0_l.
    + symmetry. rewrite getOverlapAmount_spans.
      apply sumZ_zero. intros s1 Hs1. apply sumZ_zero. intros s2 Hs2.
      by apply span_disjoint_overlap, Hdis.
Qed.

Lemma getExonSimilarity_props_witness :
  FeatureNode.getExonSimilarity
    (transcript_on "chr1" [(0, 10); (20, 50)])
    (transcript_on "chr1" [(20, 50); (0, 10)]) = 1%Qc
  /\ FeatureNode.getExonSimilarity
       (transcript_on "chr1" [(0, 10); (20, 50)])
       (transcript_on "chr1" []) = 0%Qc
  /\ FeatureNode.getExonSimilarity
       (transcript_on "chr1" [(0, 10); (20, 50)])
       (transcript_on "chr2" [(0, 10); (20, 50)]) = 0%Qc
  /\ FeatureNode.getExonSimilarity
       (transcript_on "chr1" [(0, 10); (20, 50)])
       (transcript_on "chr1" [(10, 20); (50, 60)]) = 0%Qc.
Proof.
  split; [|split; [|split]].
  - destruct (getExonSimilarity_props
                (transcript_on "chr1" [(0, 10); (20, 50)])
                (transcript_on "chr1" [(20, 50); (0, 10)]))
      as (_ & Hsame & _).
    apply Hsame.
    + exact (perm_swap _ _ []).
    + discriminate.
    + split.
      * apply Forall_cons; [simpl; lia|].
        apply Forall_cons; [simpl; lia | apply Forall_nil].
      * apply FOP_cons.
        -- apply Forall_cons; [|apply Forall_nil].
           right. right. left. simpl. lia.
        -- apply FOP_cons; [apply Forall_nil | apply FOP_nil].
    + reflexivity.
  - destruct (getExonSimilarity_props
                (transcript_on "chr1" [(0, 10); (20, 50)])
                (transcript_on "chr1" []))
      as (_ & _ & Hnone & _).
    apply Hnone. right. reflexivity.
  - destruct (getExonSimilarity_props
                (transcript_on "chr1" [(0, 10); (20, 50)])
                (transcript_on "chr2" [(0, 10); (20, 50)]))
      as (_ & _ & _ & Hseq & _).
    apply Hseq. discriminate.
  - destruct (getExonSimilarity_props
                (transcript_on "chr1" [(0, 10); (20, 50)])
                (transcript_on "chr1" [(10, 20); (50, 60)]))
      as (_ & _ & _ & _ & Hapart).
    apply Hapart. intros s1 s2 Hs1 Hs2.
    apply list_elem_of_In in Hs1. apply list_elem_of_In in Hs2.
    simpl in Hs1, Hs2.
    destruct Hs1 as [<-|[<-|[]]]; destruct Hs2 as [<-|[<-|[]]];
      right; right; simpl; lia.
Defined.

(** * Part IV: further properties of the code *)

(** ** Links kept by the constructor and [addChild] *)

(** The node found at an address after [addChild this node]. *)
Lemma addChild_lookup (h h' : Linked.store) (this node a : Linked.addr)
    (n' : Linked.FeatureNode) :
  Linked.addChild this node h = Returns h' ->
  h' !! a = Some n' ->
  exists n0,
    h !! a = Some n0
    /\ Linked.fChildren n'
       = (if decide (a = this) then Linked.fChildren n0 ++ [node]
          else Linked.fChildren n0)
    /\ Linked.fParent n'
       = (if decide (a = node) then Some this else Linked.fParent n0).
Proof.
  unfold Linked.addChild. intros Hadd Ha.
  destruct (h !! node) as [nn|] eqn:Hn; [|done].
  destruct (h !! this) as [pn|] eqn:Hp; [|done].
  case_bool_decide; [|done]. injection Hadd as <-.
  destruct (decide (a = node)) as [Heq1|Hne1];
    destruct (decide (a = this)) as [Heq2|Hne2].
  - subst a. subst this. rewrite !lookup_alter_eq, Hn in Ha.
    injection Ha as <-. by exists nn.
  - subst a. rewrite lookup_alter_eq, lookup_alter_ne, Hn in Ha by done.
    injection Ha as <-. by exists nn.
  - subst a. rewrite lookup_alter_ne, lookup_alter_eq, Hp in Ha by done.
    injection Ha as <-. by exists pn.
  - rewrite !lookup_alter_ne in Ha by done. by exists n'.
Qed.

Lemma addChild_allocated (h h' : Linked.store) (this node a : Linked.addr)
    (n0 : Linked.FeatureNode) :
  Linked.addChild this node h = Returns h' ->
  h !! a = Some n0 ->
  exists n', h' !! a = Some n'.
Proof.
  unfold Linked.addChild. intros Hadd Ha.
  destruct (h !! node) as [nn|] eqn:Hn; [|done].
  destruct (h !! this) as [pn|] eqn:Hp; [|done].
  case_bool_decide; [|done]. injection Hadd as <-.
  destruct (decide (a = node)) as [Heq1|Hne1];
    destruct (decide (a = this)) as [Heq2|Hne2].
  - subst a. subst this. rewrite !lookup_alter_eq, Hn. simpl. eauto.
  - subst a. rewrite lookup_alter_eq, lookup_alter_ne, Hn by done.
    simpl. eauto.
  - subst a. rewrite lookup_alter_ne, lookup_alter_eq, Hp by done.
    simpl. eauto.
  - rewrite !lookup_alter_ne by done. eauto.
Qed.

Lemma addChild_parentless (h h' : Linked.store) (this node : Linked.addr) :
  Linked.addChild this node h = Returns h' ->
  exists nn pn,
    h !! node = Some nn /\ h !! this = Some pn
    /\ Linked.fParent nn = None.
Proof.
  unfold Linked.addChild. intros Hadd.
  destruct (h !! node) as [nn|] eqn:Hn; [|done].
  destruct (h !! this) as [pn|] eqn:Hp; [|done].
  case_bool_decide; [|done]. eauto.
Qed.

Lemma addChild_keeps_links (h h' : Linked.store) (this node : Linked.addr) :
  well_linked h ->
  Linked.addChild this node h = Returns h' ->
  well_linked h'.
Proof.
  intros (Hdown & Hup & Hnodup) Hadd.
  destruct (addChild_parentless _ _ _ _ Hadd) as (nn & pn & Hn & Hp & Hnone).
  assert (Hnot_child : forall a n0 c,
            h !! a = Some n0 -> c ∈ Linked.fChildren n0 -> c <> node).
  { intros a n0 c Ha Hc ->.
    destruct (Hdown a n0 node Ha Hc) as (cn & Hcn & Hpar). congruence. }
  split; [|split].
  - intros a n' c Ha Hc.
    destruct (addChild_lookup _ _ _ _ _ _ Hadd Ha) as (n0 & Ha0 & Hch & _).
    assert (Hcase : c ∈ Linked.fChildren n0 \/ (a = this /\ c = node)).
    { rewrite Hch in Hc. case_decide; [|by left].
      apply elem_of_app in Hc as [Hc|Hc]; [by left|].
      apply list_elem_of_singleton in Hc. by right. }
    destruct Hcase as [Hold | [-> ->]].
    + destruct (Hdown a n0 c Ha0 Hold) as (cn & Hcn & Hpar).
      destruct (addChild_allocated _ _ _ _ _ _ Hadd Hcn) as (cn' & Hcn').
      exists cn'. split; [done|].
      destruct (addChild_lookup _ _ _ _ _ _ Hadd Hcn')
        as (cn0 & Hcn0 & _ & Hpar').
      rewrite Hpar'. rewrite decide_False by eauto. congruence.
    + destruct (addChild_allocated _ _ _ _ _ _ Hadd Hn) as (nn' & Hnn').
      exists nn'. split; [done|].
      destruct (addChild_lookup _ _ _ _ _ _ Hadd Hnn') as (nn0 & _ & _ & Hpar').
      by rewrite Hpar', decide_True.
  - intros c cn' q Hc Hpar.
    destruct (addChild_lookup _ _ _ _ _ _ Hadd Hc) as (cn0 & Hc0 & _ & Hpar').
    rewrite Hpar' in Hpar.
    assert (Hcase : (c = node /\ q = this)
                    \/ (c <> node /\ Linked.fParent cn0 = Some q)).
    { case_decide; [left|right]; split; congruence. }
    destruct Hcase as [[-> ->] | [Hne Hold]].
    + destruct (addChild_allocated _ _ _ _ _ _ Hadd Hp) as (pn' & Hpn').
      exists pn'. split; [done|].
      destruct (addChild_lookup _ _ _ _ _ _ Hadd Hpn') as (pn0 & _ & Hch & _).
      rewrite Hch, decide_True by done.
      apply elem_of_app. right. by apply list_elem_of_singleton.
    + destruct (Hup c cn0 q Hc0 Hold) as (qn & Hqn & Hin).
      destruct (addChild_allocated _ _ _ _ _ _ Hadd Hqn) as (qn' & Hqn').
      exists qn'. split; [done|].
      destruct (addChild_lookup _ _ _ _ _ _ Hadd Hqn')
        as (qn0 & Hqn0 & Hch & _).
      assert (qn0 = qn) as -> by congruence.
      rewrite Hch. case_decide; [|done]. apply elem_of_app. by left.
  - intros a n' Ha.
    destruct (addChild_lookup _ _ _ _ _ _ Hadd Ha) as (n0 & Ha0 & Hch & _).
    rewrite Hch. case_decide; [|by eapply Hnodup].
    apply stdpp.list_relations.list.NoDup_app.
    split; [by eapply Hnodup|]. split.
    + intros c Hc Hc'. apply list_elem_of_singleton in Hc'.
      by eapply Hnot_child.
    + apply NoDup_singleton.
Qed.

Lemma new_keeps_links (h h' : Linked.store) (node : Linked.addr)
    (feature : GxfFeature) :
  well_linked h ->
  Linked.new node feature h = Returns h' ->
  well_linked h'.
Proof.
  intros (Hdown & Hup & Hnodup). unfold Linked.new.
  destruct (h !! node) eqn:Hfree; [done|]. intros [= <-].
  assert (Hold : forall a n, <[node := Linked.newFeatureNode feature]> h !! a
                             = Some n ->
                 (a = node /\ n = Linked.newFeatureNode feature)
                 \/ (a <> node /\ h !! a = Some n)).
  { intros a n. rewrite lookup_insert. case_decide; [left|right].
    - split; congruence.
    - split; [congruence | done]. }
  split; [|split].
  - intros a n c Ha Hc. apply Hold in Ha as [[-> ->] | [Hne Ha]].
    + by apply elem_of_nil in Hc.
    + destruct (Hdown a n c Ha Hc) as (cn & Hcn & Hpar).
      exists cn. split; [|done].
      rewrite lookup_insert_ne; [done|]. congruence.
  - intros c cn q Hc Hpar. apply Hold in Hc as [[-> ->] | [Hne Hc]]; [done|].
    destruct (Hup c cn q Hc Hpar) as (qn & Hqn & Hin).
    exists qn. split; [|done].
    rewrite lookup_insert_ne; [done|]. congruence.
  - intros a n Ha. apply Hold in Ha as [[-> ->] | [Hne Ha]].
    + apply NoDup_nil_2.
    + by eapply Hnodup.
Qed.

(** X1: in every store built with the constructor and [addChild], the
    parent and child links agree: each child names its parent, each parent
    lists its child, and no child is listed twice. *)
Theorem built_well_linked (h : Linked.store) : built h -> well_linked h.
Proof.
  induction 1 as [|h node feature h' _ IH Hnew|h this node h' _ IH Hadd].
  - split; [|split]; intros *; by rewrite lookup_empty.
  - by eapply new_keeps_links.
  - by eapply addChild_keeps_links.
Qed.

Lemma built_well_linked_witness : well_linked gene_with_transcript.
Proof.
  apply built_well_linked.
  apply (built_addChild
           {[ 1%positive :=
                Linked.newFeatureNode
                  (mkGxfFeature "chr1" SOURCE_HAVANA GENE 0 10 "+" []);
              2%positive :=
                Linked.newFeatureNode
                  (mkGxfFeature "chr1" SOURCE_HAVANA TRANSCRIPT 0 10 "+" []) ]}
           1%positive 2%positive).
  - apply (built_new
             {[ 1%positive :=
                  Linked.newFeatureNode
                    (mkGxfFeature "chr1" SOURCE_HAVANA GENE 0 10 "+" []) ]}
             2%positive
             (mkGxfFeature "chr1" SOURCE_HAVANA TRANSCRIPT 0 10 "+" [])).
    + apply (built_new ∅ 1%positive
               (mkGxfFeature "chr1" SOURCE_HAVANA GENE 0 10 "+" [])).
      * apply built_empty.
      * reflexivity.
    + reflexivity.
  - reflexivity.
Defined.

(** ** Attaching in order *)

(** The parent of [node] after [addChild this node]. *)
Lemma addChild_parent (h h' : Linked.store) (this node : Linked.addr) :
  Linked.addChild this node h = Returns h' ->
  exists n', h' !! node = Some n' /\ Linked.fParent n' = Some this.
Proof.
  intros Hadd.
  destruct (addChild_parentless _ _ _ _ Hadd) as (nn & pn & Hn & _ & _).
  destruct (addChild_allocated _ _ _ _ _ _ Hadd Hn) as (n' & Hn').
  exists n'. split; [done|].
  destruct (addChild_lookup _ _ _ _ _ _ Hadd Hn') as (n0 & _ & _ & Hpar).
  by rewrite Hpar, decide_True.
Qed.

Lemma addChild_other (h h' : Linked.store) (this node a : Linked.addr) :
  Linked.addChild this node h = Returns h' ->
  a <> this -> a <> node -> h' !! a = h !! a.
Proof.
  unfold Linked.addChild. intros Hadd Hthis Hnode.
  destruct (h !! node) as [nn|] eqn:Hn; [|done].
  destruct (h !! this) as [pn|] eqn:Hp; [|done].
  case_bool_decide; [|done]. injection Hadd as <-.
  by rewrite !lookup_alter_ne.
Qed.

(** X3: attaching distinct parentless nodes to [this] one after the other
    returns normally each time; the child vector of [this] is then what it
    was followed by the nodes in the order of the calls, each of them has
    [this] as its parent, and no other node has changed. *)
Theorem addChildren_in_order (nodes : list Linked.addr) (h : Linked.store)
    (this : Linked.addr) (pn : Linked.FeatureNode) :
  h !! this = Some pn ->
  NoDup nodes ->
  this ∉ nodes ->
  (forall node, node ∈ nodes ->
     exists nn, h !! node = Some nn /\ Linked.fParent nn = None) ->
  exists h',
    addChildren this nodes h = Returns h'
    /\ Linked.fChildren <$> h' !! this = Some (Linked.fChildren pn ++ nodes)
    /\ (forall node, node ∈ nodes ->
          Linked.fParent <$> h' !! node = Some (Some this))
    /\ (forall a, a <> this -> a ∉ nodes -> h' !! a = h !! a).
Proof.
  revert h pn. induction nodes as [|n nodes IH]; intros h pn Hp Hnd Hthis Hfree.
  - exists h. simpl. rewrite Hp, app_nil_r. repeat split; try done.
    intros node Hnode. by apply elem_of_nil in Hnode.
  - apply stdpp.list_relations.list.NoDup_cons in Hnd as [Hn_rest Hnd].
    apply not_elem_of_cons in Hthis as [Hne Hthis].
    destruct (Hfree n) as (nn & Hn & Hnone); [apply list_elem_of_here|].
    pose proof (addChild_returns h this n pn nn Hp Hn Hnone) as Hadd.
    set (h1 := alter (Linked.set_parent this) n
                     (alter (Linked.push_child n) this h)) in Hadd.
    destruct (addChild_allocated _ _ _ _ _ _ Hadd Hp) as (pn1 & Hp1).
    destruct (addChild_lookup _ _ _ _ _ _ Hadd Hp1) as (pn0 & Hp0 & Hch & _).
    assert (pn0 = pn) as -> by congruence.
    rewrite decide_True in Hch by done.
    destruct (IH h1 pn1 Hp1 Hnd Hthis) as (h' & Hrun & Hchildren & Hpar & Hfr).
    { intros m Hm.
      destruct (Hfree m) as (mn & Hmn & Hmnone);
        [by apply list_elem_of_further|].
      assert (m <> n) by (intros ->; done).
      destruct (addChild_allocated _ _ _ _ _ _ Hadd Hmn) as (mn1 & Hmn1).
      exists mn1. split; [done|].
      destruct (addChild_lookup _ _ _ _ _ _ Hadd Hmn1)
        as (mn0 & Hmn0 & _ & Hmpar).
      rewrite Hmpar, decide_False by done. congruence. }
    exists h'. simpl. rewrite Hadd. split; [done|]. split; [|split].
    + rewrite Hchildren, Hch. by rewrite <- app_assoc.
    + intros m Hm. apply elem_of_cons in Hm as [->|Hm]; [|by apply Hpar].
      rewrite Hfr by (done || congruence).
      destruct (addChild_parent _ _ _ _ Hadd) as (n' & Hn' & Hnpar).
      by rewrite Hn', <- Hnpar.
    + intros a Ha Hnot. apply not_elem_of_cons in Hnot as [Han Hnot].
      rewrite Hfr by done. by eapply addChild_other.
Qed.

Lemma addChildren_in_order_witness :
  exists h',
    addChildren 1%positive [2%positive] linked_example = Returns h'
    /\ Linked.fChildren <$> h' !! 1%positive = Some [3%positive; 2%positive]
    /\ Linked.fParent <$> h' !! 2%positive = Some (Some 1%positive).
Proof.
  edestruct (addChildren_in_order [2%positive] linked_example 1%positive)
    as (h' & Hrun & Hchildren & Hparent & _).
  - reflexivity.
  - apply NoDup_singleton.
  - intros Hin. apply list_elem_of_singleton in Hin. discriminate Hin.
  - intros node Hin. apply list_elem_of_singleton in Hin. subst node.
    eexists. split; reflexivity.
  - exists h'. split; [exact Hrun|]. split; [exact Hchildren|].
    apply Hparent. apply list_elem_of_here.
Defined.

(** ** The destructor *)

Lemma addrs_unfold (root : Linked.addr) (ts : list ptree) :
  addrs (PNode root ts) = root :: concat (addrs <$> ts).
Proof.
  simpl. f_equal. induction ts as [|t ts IH]; simpl; [done | by rewrite IH].
Qed.

Lemma shape_unfold (h : Linked.store) (root : Linked.addr)
    (ts : list ptree) :
  shape h (PNode root ts)
  <-> (exists n, h !! root = Some n /\ Linked.fChildren n = proot <$> ts)
      /\ Forall (shape h) ts.
Proof.
  simpl. apply and_iff_compat_l.
  induction ts as [|t ts IH]; simpl.
  - split; [constructor | done].
  - rewrite Forall_cons_iff, IH. done.
Qed.

Lemma addrs_subtree (t : ptree) (ts : list ptree) (a : Linked.addr) :
  In t ts -> a ∈ addrs t -> a ∈ concat (addrs <$> ts).
Proof.
  induction ts as [|t' ts IH]; simpl; [done|].
  intros [->|Hin] Ha; apply elem_of_app; [by left | right; by apply IH].
Qed.

(** A tree is still held when the child vectors of its nodes are. *)
Lemma shape_frame (h h' : Linked.store) (t : ptree) :
  shape h t ->
  (forall a, a ∈ addrs t ->
     Linked.fChildren <$> h' !! a = Linked.fChildren <$> h !! a) ->
  shape h' t.
Proof.
  induction t as [root ts IH] using ptree_induction.
  rewrite !shape_unfold, addrs_unfold.
  intros [(n & Hroot & Hch) Hts] Hsame. split.
  - specialize (Hsame root (list_elem_of_here _ _)).
    rewrite Hroot in Hsame. simpl in Hsame.
    destruct (h' !! root) as [n'|]; [|done].
    exists n'. split; [done|]. simpl in Hsame. congruence.
  - rewrite Forall_forall in IH, Hts. apply Forall_forall. intros t Ht.
    apply IH; [done | by apply Hts|].
    intros a Ha. apply Hsame, list_elem_of_further.
    by eapply addrs_subtree.
Qed.

Lemma addrs_subtree_length (t : ptree) (ts : list ptree) :
  t ∈ ts -> (length (addrs t) <= length (concat (addrs <$> ts)))%nat.
Proof.
  induction 1 as [t ts|t t' ts _ IH];
    rewrite fmap_cons; cbn [concat]; rewrite length_app; lia.
Qed.

(** The loop of the destructor over the children of a tree, given that
    [delete] releases each of them. *)
Lemma deleteEach_forest
    (deleteNode : Linked.addr -> Linked.store -> bounded Linked.store)
    (ts : list ptree) (h : Linked.store) :
  Forall (fun t => forall h,
            shape h t -> NoDup (addrs t) ->
            exists h',
              deleteNode (proot t) h = Some (Returns h')
              /\ forall a, h' !! a
                           = if decide (a ∈ addrs t) then None else h !! a)
         ts ->
  Forall (shape h) ts ->
  NoDup (concat (addrs <$> ts)) ->
  exists h',
    Linked.deleteEach deleteNode (proot <$> ts) h = Some (Returns h')
    /\ forall a, h' !! a
                 = if decide (a ∈ concat (addrs <$> ts)) then None
                   else h !! a.
Proof.
  revert h. induction ts as [|t ts IHts]; intros h Hdel Hshape Hnd.
  - exists h. split; [done|]. intros a.
    case_decide as Hin; [|done]. simpl in Hin. by apply elem_of_nil in Hin.
  - apply Forall_cons_iff in Hdel as [Hdel_t Hdel].
    apply Forall_cons_iff in Hshape as [Hshape_t Hshape].
    rewrite fmap_cons in Hnd. simpl in Hnd.
    apply stdpp.list_relations.list.NoDup_app in Hnd as (Hnd_t & Hdisj & Hnd).
    destruct (Hdel_t h Hshape_t Hnd_t) as (h1 & Hrun1 & Hspec1).
    destruct (IHts h1 Hdel) as (h' & Hrun & Hspec); [|done|].
    { rewrite Forall_forall in Hshape. apply Forall_forall. intros t' Ht'.
      apply (shape_frame h); [by apply Hshape|].
      intros a Ha. rewrite Hspec1, decide_False; [done|].
      intros Hin. apply (Hdisj a Hin). by eapply addrs_subtree. }
    exists h'. split.
    + rewrite fmap_cons. simpl. rewrite Hrun1. exact Hrun.
    + intros a. rewrite Hspec, Hspec1, fmap_cons. cbn [concat].
      repeat case_decide; try done; exfalso;
        repeat match goal with
               | H : context [_ ∈ _ ++ _] |- _ => rewrite elem_of_app in H
               end; tauto.
Qed.

(** [delete] of the root of a tree none of whose nodes has its destructor
    under way. *)
Lemma deleteWithin_tree (t : ptree) :
  forall (fuel : nat) (running : list Linked.addr) (h : Linked.store),
    shape h t ->
    NoDup (addrs t) ->
    (forall a, a ∈ addrs t -> a ∉ running) ->
    (length (addrs t) <= fuel)%nat ->
    exists h',
      Linked.deleteWithin fuel running (proot t) h = Some (Returns h')
      /\ forall a, h' !! a = if decide (a ∈ addrs t) then None else h !! a.
Proof.
  induction t as [root ts IH] using ptree_induction.
  intros fuel running h Hshape Hnd Hout Hfuel.
  apply shape_unfold in Hshape as [(n & Hroot & Hch) Hts].
  rewrite addrs_unfold in Hnd, Hfuel, Hout |- *.
  apply stdpp.list_relations.list.NoDup_cons in Hnd as [Hroot_out Hnd].
  destruct fuel as [|fuel]; [simpl in Hfuel; lia|].
  simpl in Hfuel. simpl. rewrite Hroot, Hch.
  rewrite bool_decide_eq_false_2
    by (apply Hout, list_elem_of_here).
  destruct (deleteEach_forest
              (Linked.deleteWithin fuel (root :: running)) ts h)
    as (h1 & Hrun & Hspec); [|done|done|].
  { rewrite Forall_forall in IH. apply Forall_forall. intros t Ht h0 Hs Hn.
    apply IH; [done|done|done| |].
    - intros a Ha Hin. apply elem_of_cons in Hin as [->|Hin].
      + apply Hroot_out. by eapply addrs_subtree.
      + apply (Hout a); [|done]. apply list_elem_of_further.
        by eapply addrs_subtree.
    - apply list_elem_of_In in Ht.
      pose proof (addrs_subtree_length t ts Ht). lia. }
  rewrite Hrun. simpl.
  rewrite Hspec, decide_False, Hroot by done.
  eexists. split; [done|].
  intros a. rewrite lookup_delete, Hspec.
  repeat case_decide; try done; exfalso;
    repeat match goal with
           | H : context [_ ∈ _ :: _] |- _ => rewrite elem_of_cons in H
           end; intuition congruence.
Qed.

Lemma deleteNode_tree (t : ptree) :
  forall (fuel : nat) (h : Linked.store),
    shape h t ->
    NoDup (addrs t) ->
    (length (addrs t) <= fuel)%nat ->
    exists h',
      Linked.deleteNode fuel (proot t) h = Some (Returns h')
      /\ forall a, h' !! a = if decide (a ∈ addrs t) then None else h !! a.
Proof.
  intros fuel h Hshape Hnd Hfuel. apply deleteWithin_tree; [done|done| |done].
  intros a _. apply not_elem_of_nil.
Qed.

(** X4: when the store holds a tree at [node], no address occurring twice
    in it, [delete node] returns, given fuel for the number of nodes: every
    node of the tree is released, once, and every other node of the store
    is as it was. *)
Theorem deleteNode_releases_tree (t : ptree) (fuel : nat)
    (h : Linked.store) :
  shape h t ->
  NoDup (addrs t) ->
  (length (addrs t) <= fuel)%nat ->
  exists h',
    Linked.deleteNode fuel (proot t) h = Some (Returns h')
    /\ (forall a, a ∈ addrs t -> h' !! a = None)
    /\ (forall a, a ∉ addrs t -> h' !! a = h !! a).
Proof.
  intros Hshape Hnd Hfuel.
  destruct (deleteNode_tree t fuel h Hshape Hnd Hfuel) as (h' & Hrun & Hspec).
  exists h'. split; [done|].
  split; intros a Ha; rewrite Hspec.
  - by rewrite decide_True.
  - by rewrite decide_False.
Qed.

(** Checks that a concrete store holds a concrete tree. *)
Ltac solve_shape :=
  simpl;
  repeat match goal with
         | |- _ /\ _ => split
         | |- exists _, _ => eexists
         | |- True => exact I
         | |- _ = _ => reflexivity
         end.

Lemma deleteNode_releases_tree_witness :
  exists h',
    Linked.deleteNode 3 1%positive linked_example_attached = Some (Returns h')
    /\ h' !! 1%positive = None /\ h' !! 2%positive = None
    /\ h' !! 3%positive = None.
Proof.
  destruct (deleteNode_releases_tree
              (PNode 1%positive [PNode 3%positive []; PNode 2%positive []])
              3 linked_example_attached)
    as (h' & Hrun & Hgone & _).
  - solve_shape.
  - apply (bool_decide_unpack _). vm_compute. exact I.
  - simpl. lia.
  - exists h'. split; [exact Hrun|].
    repeat split; apply Hgone; apply (bool_decide_unpack _); vm_compute; exact I.
Defined.

Example deleteNode_example :
  Linked.deleteNode 3 1%positive linked_example_attached = Some (Returns ∅)
  /\ Linked.deleteNode 1 1%positive linked_example_attached = None
  /\ Linked.deleteNode 3 3%positive (delete 3%positive linked_example_attached)
     = Some Undefined
  /\ Linked.deleteNode 5 2%positive
       (alter (Linked.set_parent 2%positive) 2%positive
          (alter (Linked.push_child 2%positive) 2%positive linked_example))
     = Some Undefined.
Proof. repeat split; vm_compute; reflexivity. Qed.

(** ** Attaching a tree *)

Lemma addChild_children (h h' : Linked.store) (this node a : Linked.addr) :
  Linked.addChild this node h = Returns h' ->
  a <> this ->
  Linked.fChildren <$> h' !! a = Linked.fChildren <$> h !! a.
Proof.
  unfold Linked.addChild. intros Hadd Hthis.
  destruct (h !! node) as [nn|] eqn:Hn; [|done].
  destruct (h !! this) as [pn|] eqn:Hp; [|done].
  case_bool_decide; [|done]. injection Hadd as <-.
  destruct (decide (a = node)) as [->|Hne].
  - rewrite lookup_alter_eq, lookup_alter_ne, Hn by done. done.
  - by rewrite !lookup_alter_ne.
Qed.

(** X5: attaching the root of a tree that has no parent to the root of a
    tree that shares no node with it returns normally, and the store then
    holds the one tree with the other as its last subtree, still without
    an address occurring twice. *)
Theorem addChild_grafts_tree (h : Linked.store) (this : Linked.addr)
    (ts : list ptree) (tn : ptree) (nn : Linked.FeatureNode) :
  shape h (PNode this ts) ->
  shape h tn ->
  NoDup (addrs (PNode this ts) ++ addrs tn) ->
  h !! proot tn = Some nn ->
  Linked.fParent nn = None ->
  exists h',
    Linked.addChild this (proot tn) h = Returns h'
    /\ shape h' (PNode this (ts ++ [tn]))
    /\ NoDup (addrs (PNode this (ts ++ [tn]))).
Proof.
  intros Hthis Htn Hnd Hn Hnone.
  pose proof Hthis as Hthis'.
  apply shape_unfold in Hthis' as [(pn & Hp & Hch) Hts].
  pose proof (addChild_returns h this (proot tn) pn nn Hp Hn Hnone) as Hadd.
  eexists. split; [exact Hadd|].
  assert (Haddrs : addrs (PNode this (ts ++ [tn]))
                   = addrs (PNode this ts) ++ addrs tn).
  { rewrite !addrs_unfold, fmap_app, concat_app. simpl.
    by rewrite app_nil_r. }
  split; [|by rewrite Haddrs].
  rewrite addrs_unfold in Hnd. simpl in Hnd.
  apply stdpp.list_relations.list.NoDup_cons in Hnd as [Hthis_out Hnd].
  apply not_elem_of_app in Hthis_out as [Hout_ts Hout_tn].
  apply shape_unfold. split.
  - destruct (addChild_allocated _ _ _ _ _ _ Hadd Hp) as (pn' & Hp').
    exists pn'. split; [done|].
    destruct (addChild_lookup _ _ _ _ _ _ Hadd Hp')
      as (pn0 & Hp0 & Hch' & _).
    assert (pn0 = pn) as -> by congruence.
    rewrite Hch', decide_True, Hch, fmap_app by done. done.
  - apply Forall_app. split.
    + rewrite Forall_forall in Hts. apply Forall_forall. intros t Ht.
      apply (shape_frame h); [by apply Hts|].
      intros a Ha. eapply addChild_children; [exact Hadd|].
      intros ->. apply Hout_ts. by eapply addrs_subtree.
    + apply Forall_cons_iff. split; [|constructor].
      apply (shape_frame h); [done|].
      intros a Ha. eapply addChild_children; [exact Hadd|].
      by intros ->.
Qed.

Lemma addChild_grafts_tree_witness :
  exists h',
    Linked.addChild 1%positive 2%positive linked_example = Returns h'
    /\ shape h' (PNode 1%positive [PNode 3%positive []; PNode 2%positive []]).
Proof.
  destruct (addChild_grafts_tree linked_example 1%positive
              [PNode 3%positive []] (PNode 2%positive [])
              (Linked.newFeatureNode
                 (mkGxfFeature "chr1" SOURCE_HAVANA TRANSCRIPT 0 10 "+" [])))
    as (h' & Hadd & Hshape & _).
  - solve_shape.
  - solve_shape.
  - apply (bool_decide_unpack _). vm_compute. exact I.
  - reflexivity.
  - reflexivity.
  - exists h'. split; [exact Hadd | exact Hshape].
Defined.

(** ** A node attached to itself *)

Lemma andThen_returns {A B : Type} (x : bounded A) (k : A -> bounded B)
    (b : B) :
  andThen x k = Some (Returns b) ->
  exists a, x = Some (Returns a) /\ k a = Some (Returns b).
Proof. destruct x as [[a| | |]|]; simpl; intros Hk; try done. eauto. Qed.

(** [delete] releases nodes and changes none. *)
Lemma deleteEach_only_deletes
    (deleteNode : Linked.addr -> Linked.store -> bounded Linked.store)
    (cs : list Linked.addr) :
  (forall c h h', deleteNode c h = Some (Returns h') ->
                  forall b, h' !! b = None \/ h' !! b = h !! b) ->
  forall h h', Linked.deleteEach deleteNode cs h = Some (Returns h') ->
               forall b, h' !! b = None \/ h' !! b = h !! b.
Proof.
  intros Hdel. induction cs as [|c cs IH]; intros h h' Hrun b; simpl in Hrun.
  - injection Hrun as <-. by right.
  - apply andThen_returns in Hrun as (h1 & Hc & Hrest).
    destruct (IH h1 h' Hrest b) as [Hnone|Hsame]; [by left|].
    rewrite Hsame. by eapply Hdel.
Qed.

Lemma deleteWithin_only_deletes (fuel : nat) :
  forall running node h h',
    Linked.deleteWithin fuel running node h = Some (Returns h') ->
    forall b, h' !! b = None \/ h' !! b = h !! b.
Proof.
  induction fuel as [|fuel IH]; intros running node h h' Hrun b;
    simpl in Hrun; [done|].
  destruct (h !! node) as [n|] eqn:Hn; [|done].
  case_bool_decide; [done|].
  apply andThen_returns in Hrun as (h1 & Hloop & Hlast).
  destruct (h1 !! node); [|done]. injection Hlast as <-.
  destruct (decide (b = node)) as [->|Hne].
  - left. apply lookup_delete_eq.
  - rewrite lookup_delete_ne by done.
    eapply deleteEach_only_deletes; [|exact Hloop].
    intros c h0 h0'. apply IH.
Qed.

Lemma deleteNode_only_deletes (fuel : nat) :
  forall node h h',
    Linked.deleteNode fuel node h = Some (Returns h') ->
    forall b, h' !! b = None \/ h' !! b = h !! b.
Proof. intros node h h'. apply deleteWithin_only_deletes. Qed.

Lemma deleteEach_own_child (p : Linked.addr)
    (deleteNode : Linked.addr -> Linked.store -> bounded Linked.store)
    (cs : list Linked.addr) :
  (forall c h h', deleteNode c h = Some (Returns h') ->
                  forall b, h' !! b = None \/ h' !! b = h !! b) ->
  (forall h h',
     (forall n, h !! p = Some n -> p ∈ Linked.fChildren n) ->
     deleteNode p h <> Some (Returns h')) ->
  p ∈ cs ->
  forall h h',
    (forall n, h !! p = Some n -> p ∈ Linked.fChildren n) ->
    Linked.deleteEach deleteNode cs h <> Some (Returns h').
Proof.
  intros Honly Hnever. induction cs as [|c cs IH]; intros Hin h h' Hinv Hrun.
  - by apply elem_of_nil in Hin.
  - simpl in Hrun. apply andThen_returns in Hrun as (h1 & Hc & Hrest).
    apply elem_of_cons in Hin as [<-|Hin].
    + by eapply Hnever.
    + eapply (IH Hin h1); [|exact Hrest].
      intros n0 Hn0.
      destruct (Honly c h h1 Hc p) as [Hgone|Hsame]; [congruence|].
      apply Hinv. congruence.
Qed.

(** The [delete] of a node that is among its own children does not
    return. *)
Lemma deleteWithin_own_child (p : Linked.addr) (fuel : nat) :
  forall running h h',
    (forall n, h !! p = Some n -> p ∈ Linked.fChildren n) ->
    Linked.deleteWithin fuel running p h <> Some (Returns h').
Proof.
  induction fuel as [|fuel IH]; intros running h h' Hself Hrun;
    simpl in Hrun; [done|].
  destruct (h !! p) as [n|] eqn:Hn; [|done].
  case_bool_decide; [done|].
  apply andThen_returns in Hrun as (h1 & Hloop & _).
  revert Hloop. apply (deleteEach_own_child p).
  - intros c h0 h0'. apply deleteWithin_only_deletes.
  - intros h0 h0'. apply IH.
  - apply Hself. reflexivity.
  - intros n0 Hn0. apply Hself. congruence.
Qed.

Lemma deleteWithin_step (fuel : nat) (running : list Linked.addr)
    (node : Linked.addr) (h : Linked.store) :
  Linked.deleteWithin (S fuel) running node h
  = match h !! node with
    | None => Some Undefined
    | Some n =>
      if bool_decide (node ∈ running) then Some Undefined
      else
        andThen (Linked.deleteEach
                   (Linked.deleteWithin fuel (node :: running))
                   (Linked.fChildren n) h)
          (fun h1 =>
             match h1 !! node with
             | Some _ => Some (Returns (delete node h1))
             | None => Some Undefined
             end)
    end.
Proof. reflexivity. Qed.

Lemma deleteEach_app
    (deleteNode : Linked.addr -> Linked.store -> bounded Linked.store)
    (cs1 cs2 : list Linked.addr) (h : Linked.store) :
  Linked.deleteEach deleteNode (cs1 ++ cs2) h
  = andThen (Linked.deleteEach deleteNode cs1 h)
            (Linked.deleteEach deleteNode cs2).
Proof.
  revert h. induction cs1 as [|c cs1 IH]; intros h; simpl; [done|].
  destruct (deleteNode c h) as [[h1| | |]|]; simpl; [apply IH|done..].
Qed.

(** X6: [addChild] accepts a node as its own child when the node has no
    parent: the call returns normally and the node is then its own child
    and its own parent.  Deleting such a node never returns normally; when
    the node was the root of a tree, the children it had are deleted, the
    destructor is then entered on the node a second time and releases its
    record again, which is undefined. *)
Theorem addChild_self_not_deletable (h : Linked.store) (p : Linked.addr)
    (pn : Linked.FeatureNode) :
  h !! p = Some pn ->
  Linked.fParent pn = None ->
  exists h',
    Linked.addChild p p h = Returns h'
    /\ (exists n', h' !! p = Some n'
                   /\ p ∈ Linked.fChildren n'
                   /\ Linked.fParent n' = Some p)
    /\ (forall fuel h'', Linked.deleteNode fuel p h' <> Some (Returns h''))
    /\ (forall (ts : list ptree) (fuel : nat),
          shape h (PNode p ts) ->
          NoDup (addrs (PNode p ts)) ->
          (length (addrs (PNode p ts)) < fuel)%nat ->
          Linked.deleteNode fuel p h' = Some Undefined).
Proof.
  intros Hp Hnone.
  pose proof (addChild_returns h p p pn pn Hp Hp Hnone) as Hadd.
  eexists. split; [exact Hadd|].
  destruct (addChild_allocated _ _ _ _ _ _ Hadd Hp) as (n' & Hn').
  destruct (addChild_lookup _ _ _ _ _ _ Hadd Hn') as (n0 & Hn0 & Hch & Hpar).
  rewrite decide_True in Hch by done. rewrite decide_True in Hpar by done.
  assert (Hin : p ∈ Linked.fChildren n').
  { rewrite Hch. apply elem_of_app. right. apply list_elem_of_here. }
  split; [by exists n'|]. split.
  { intros fuel h''. apply deleteWithin_own_child.
    intros n1 Hn1. congruence. }
  intros ts fuel Hshape Hnd Hfuel.
  apply shape_unfold in Hshape as [(n & Hroot & Hchn) Hts].
  rewrite addrs_unfold in Hnd, Hfuel.
  apply stdpp.list_relations.list.NoDup_cons in Hnd as [Hp_out Hnd].
  assert (n0 = n) by congruence. subst n0.
  destruct fuel as [|[|fuel]]; [simpl in Hfuel; lia..|].
  simpl in Hfuel.
  unfold Linked.deleteNode. rewrite deleteWithin_step, Hn'.
  rewrite bool_decide_eq_false_2 by apply not_elem_of_nil.
  rewrite Hch, Hchn, deleteEach_app.
  destruct (deleteEach_forest (Linked.deleteWithin (S fuel) [p]) ts
              (alter (Linked.set_parent p) p
                 (alter (Linked.push_child p) p h)))
    as (h1 & Hrun & Hspec); [| |done|].
  { apply Forall_forall. intros t Ht h0 Hs Hn1.
    apply deleteWithin_tree; [done|done| |].
    - intros a Ha Hin'. apply list_elem_of_singleton in Hin' as ->.
      apply Hp_out. by eapply addrs_subtree.
    - apply list_elem_of_In in Ht.
      pose proof (addrs_subtree_length t ts Ht). lia. }
  { rewrite Forall_forall in Hts. apply Forall_forall. intros t Ht.
    apply (shape_frame h); [by apply Hts|].
    intros a Ha. apply (addChild_children _ _ _ _ _ Hadd).
    intros ->. apply Hp_out. by eapply addrs_subtree. }
  rewrite Hrun. cbn [andThen Linked.deleteEach].
  rewrite deleteWithin_step, Hspec, decide_False, Hn' by done.
  by rewrite bool_decide_eq_true_2 by apply list_elem_of_here.
Qed.

Lemma addChild_self_not_deletable_witness :
  exists h',
    Linked.addChild 2%positive 2%positive linked_example = Returns h'
    /\ (forall fuel h'',
          Linked.deleteNode fuel 2%positive h' <> Some (Returns h''))
    /\ Linked.deleteNode 2 2%positive h' = Some Undefined.
Proof.
  destruct (addChild_self_not_deletable linked_example 2%positive _
              eq_refl eq_refl) as (h' & Hadd & _ & Hnever & Hundefined).
  exists h'. split; [exact Hadd|]. split; [exact Hnever|].
  apply (Hundefined []).
  - solve_shape.
  - apply (bool_decide_unpack _). vm_compute. exact I.
  - simpl. lia.
Defined.

(** ** Assigning a status through the pointers *)

Lemma set_remapStatus_twice (s : RemapStatus) (n : Linked.FeatureNode) :
  Linked.set_remapStatus s (Linked.set_remapStatus s n)
  = Linked.set_remapStatus s n.
Proof. done. Qed.

(** The loop over a vector of node pointers that are all allocated. *)
Lemma assignRemapStatus_allocated (s : RemapStatus)
    (nodes : list Linked.addr) :
  forall h : Linked.store,
    (forall p, p ∈ nodes -> is_Some (h !! p)) ->
    exists h',
      Linked.TransMappedFeature.assignRemapStatus s nodes h = Returns h'
      /\ forall a, h' !! a
                   = if decide (a ∈ nodes)
                     then Linked.set_remapStatus s <$> h !! a
                     else h !! a.
Proof.
  induction nodes as [|p nodes IH]; intros h Halloc.
  - exists h. split; [done|]. intros a.
    case_decide as Hin; [|done]. by apply elem_of_nil in Hin.
  - destruct (Halloc p (list_elem_of_here _ _)) as [n Hn].
    simpl. rewrite Hn.
    destruct (IH (<[p := Linked.set_remapStatus s n]> h))
      as (h' & Hrun & Hspec).
    { intros q Hq. rewrite lookup_insert. case_decide; [by eexists|].
      apply Halloc. by apply list_elem_of_further. }
    exists h'. split; [done|].
    intros a. rewrite Hspec, lookup_insert.
    destruct (decide (p = a)) as [->|Hne].
    + rewrite Hn.
      destruct (decide (a ∈ a :: nodes)) as [_|Hout];
        [|exfalso; apply Hout, list_elem_of_here].
      by case_decide.
    + repeat case_decide; try done; exfalso;
        repeat match goal with
               | H : context [_ ∈ _ :: _] |- _ => rewrite elem_of_cons in H
               end; intuition congruence.
Qed.

(** X7: when every pointer of the two collections is allocated,
    [setRemapStatus] returns normally; each node that is listed, once or
    several times, in one collection or in both, then has the status that
    [calcRemapStatus] computed before the first assignment, and nothing
    else in the store has changed. *)
Theorem setRemapStatus_through_pointers
    `{Linked.TransMappedFeature.OutOfLine} (srcSeqInMapping : bool)
    (f : Linked.TransMappedFeature.t) (h : Linked.store) :
  let nodes := Linked.TransMappedFeature.mapped f
               ++ Linked.TransMappedFeature.unmapped f in
  let remapStatus :=
    Linked.TransMappedFeature.calcRemapStatus srcSeqInMapping f h in
  (forall p, p ∈ nodes -> is_Some (h !! p)) ->
  exists h',
    Linked.TransMappedFeature.setRemapStatus srcSeqInMapping f h = Returns h'
    /\ forall a, h' !! a
                 = if decide (a ∈ nodes)
                   then Linked.set_remapStatus remapStatus <$> h !! a
                   else h !! a.
Proof.
  intros nodes remapStatus Halloc.
  unfold Linked.TransMappedFeature.setRemapStatus. fold remapStatus.
  destruct (assignRemapStatus_allocated remapStatus
              (Linked.TransMappedFeature.mapped f) h)
    as (h1 & Hrun1 & Hspec1).
  { intros p Hp. apply Halloc, elem_of_app. by left. }
  rewrite Hrun1.
  destruct (assignRemapStatus_allocated remapStatus
              (Linked.TransMappedFeature.unmapped f) h1)
    as (h2 & Hrun2 & Hspec2).
  { intros p Hp. rewrite Hspec1.
    destruct (Halloc p) as [n Hn]; [apply elem_of_app; by right|].
    rewrite Hn. by case_decide. }
  exists h2. split; [done|].
  intros a. rewrite Hspec2, Hspec1. subst nodes.
  destruct (h !! a) as [n|]; simpl.
  - repeat case_decide; simpl; try done; exfalso;
      repeat match goal with
             | H : context [_ ∈ _ ++ _] |- _ => rewrite elem_of_app in H
             end; tauto.
  - by repeat case_decide.
Qed.

Lemma setRemapStatus_through_pointers_witness :
  exists h',
    @Linked.TransMappedFeature.setRemapStatus calc_by_presence true
      (Linked.TransMappedFeature.mk None [2%positive; 3%positive]
                                    [3%positive])
      linked_example_attached = Returns h'
    /\ Linked.fRemapStatus <$> h' !! 2%positive = Some REMAP_STATUS_PARTIAL
    /\ Linked.fRemapStatus <$> h' !! 3%positive = Some REMAP_STATUS_PARTIAL
    /\ h' !! 1%positive = linked_example_attached !! 1%positive.
Proof.
  destruct (@setRemapStatus_through_pointers calc_by_presence true
              (Linked.TransMappedFeature.mk None [2%positive; 3%positive]
                                            [3%positive])
              linked_example_attached)
    as (h' & Hrun & Hspec).
  - intros p Hp. apply list_elem_of_In in Hp. simpl in Hp.
    destruct Hp as [<-|[<-|[<-|[]]]]; by eexists.
  - exists h'. split; [exact Hrun|].
    rewrite !Hspec. repeat split.
Defined.

(** X8: a [TransMappedFeature] built from a [ResultFeatureTrees] holds the
    same node pointers, so [setRemapStatus] on it writes into the trees of
    the result: [getRemapStatus] of the result then returns the status
    just computed whenever a mapped or an unmapped tree is present, and
    the store is untouched when neither is. *)
Theorem setRemapStatus_seen_by_result
    `{Linked.TransMappedFeature.OutOfLine} (srcSeqInMapping : bool)
    (featureTrees : Linked.ResultFeatureTrees.t) (h : Linked.store) :
  let f := Linked.TransMappedFeature.ofResultFeatureTrees featureTrees in
  (forall p, Linked.ResultFeatureTrees.mapped featureTrees = Some p
             \/ Linked.ResultFeatureTrees.unmapped featureTrees = Some p ->
             is_Some (h !! p)) ->
  exists h',
    Linked.TransMappedFeature.setRemapStatus srcSeqInMapping f h = Returns h'
    /\ (Linked.ResultFeatureTrees.mapped featureTrees <> None
        \/ Linked.ResultFeatureTrees.unmapped featureTrees <> None ->
        Linked.ResultFeatureTrees.getRemapStatus featureTrees h'
        = Returns (Linked.TransMappedFeature.calcRemapStatus
                     srcSeqInMapping f h))
    /\ (Linked.ResultFeatureTrees.mapped featureTrees = None ->
        Linked.ResultFeatureTrees.unmapped featureTrees = None ->
        h' = h).
Proof.
  intros f Halloc. subst f.
  unfold Linked.TransMappedFeature.setRemapStatus,
    Linked.TransMappedFeature.ofResultFeatureTrees,
    Linked.ResultFeatureTrees.getRemapStatus,
    Linked.ResultFeatureTrees.readRemapStatus.
  destruct featureTrees as [s [m|] [u|] tg]; simpl in *.
  - destruct (Halloc m) as [mn Hm]; [by left|].
    destruct (Halloc u) as [un Hu]; [by right|].
    rewrite Hm. rewrite lookup_insert, Hu.
    destruct (decide (m = u)) as [->|Hne]; simpl.
    + eexists. split; [done|]. split; [|done].
      intros _. by rewrite lookup_insert_eq.
    + eexists. split; [done|]. split; [|done].
      intros _. by rewrite lookup_insert_ne, lookup_insert_eq.
  - destruct (Halloc m) as [mn Hm]; [by left|]. rewrite Hm.
    eexists. split; [done|]. split; [|done].
    intros _. by rewrite lookup_insert_eq.
  - destruct (Halloc u) as [un Hu]; [by right|]. rewrite Hu.
    eexists. split; [done|]. split; [|done].
    intros _. by rewrite lookup_insert_eq.
  - exists h. split; [done|]. split; [|done]. intros [Hm|Hu]; done.
Qed.

Lemma setRemapStatus_seen_by_result_witness :
  exists h',
    @Linked.TransMappedFeature.setRemapStatus calc_by_presence true
      (Linked.TransMappedFeature.ofResultFeatureTrees linked_result)
      linked_example_attached = Returns h'
    /\ Linked.ResultFeatureTrees.getRemapStatus linked_result h'
       = Returns REMAP_STATUS_PARTIAL.
Proof.
  destruct (@setRemapStatus_seen_by_result calc_by_presence true
              linked_result linked_example_attached)
    as (h' & Hrun & Hseen & _).
  - intros p [Hp|Hp]; injection Hp as <-; by eexists.
  - exists h'. split; [exact Hrun|]. apply Hseen. by left.
Defined.

(** ** Attaching once *)

(** The assignment loop leaves the parent pointers as they are. *)
Lemma assignRemapStatus_parent (s : RemapStatus) (nodes : list Linked.addr) :
  forall h h',
    Linked.TransMappedFeature.assignRemapStatus s nodes h = Returns h' ->
    forall a, Linked.fParent <$> h' !! a = Linked.fParent <$> h !! a.
Proof.
  induction nodes as [|q nodes IH]; intros h h' Hrun a; simpl in Hrun.
  - by injection Hrun as <-.
  - destruct (h !! q) as [n|] eqn:Hq; [|done]. rewrite (IH _ _ Hrun).
    destruct (decide (a = q)) as [->|Hne].
    + by rewrite lookup_insert_eq, Hq.
    + by rewrite lookup_insert_ne.
Qed.

(** No call that returns and leaves [node] allocated changes its parent,
    once it has one. *)
Lemma call_keeps_parent (node this : Linked.addr) (h1 h2 : Linked.store) :
  call h1 h2 ->
  is_Some (h2 !! node) ->
  (exists n, h1 !! node = Some n /\ Linked.fParent n = Some this) ->
  exists n, h2 !! node = Some n /\ Linked.fParent n = Some this.
Proof.
  intros Hcall [n2 Hn2] (n1 & Hn1 & Hpar).
  destruct Hcall as [node' feature h1 h2 Hnew
                    |this' node' h1 h2 Hadd
                    |s nodes h1 h2 Hset
                    |fuel node' h1 h2 Hdel].
  - unfold Linked.new in Hnew.
    destruct (h1 !! node') as [|] eqn:Hfresh; [done|].
    injection Hnew as <-. exists n1. split; [|done].
    rewrite lookup_insert_ne; [done|]. congruence.
  - destruct (addChild_lookup _ _ _ _ _ _ Hadd Hn2) as (n0 & Hn0 & _ & Hp).
    exists n2. split; [done|]. rewrite Hp.
    destruct (decide (node = node')) as [<-|Hne]; [|congruence].
    destruct (addChild_parentless _ _ _ _ Hadd) as (nn & _ & Hnn & _ & Hnone).
    congruence.
  - pose proof (assignRemapStatus_parent _ _ _ _ Hset node) as Hsame.
    rewrite Hn2, Hn1 in Hsame. simpl in Hsame.
    exists n2. split; [done|]. congruence.
  - destruct (deleteNode_only_deletes _ _ _ _ Hdel node) as [Hgone|Hsame].
    + congruence.
    + exists n1. split; [congruence | done].
Qed.

(** X2: once [this->addChild(node)] has returned, [node] keeps [this] as
    its parent through every later call of the constructor, of [addChild],
    of a status assignment and of [delete] that returns, for as long as
    [node] itself is not released; so no node can take [node] as a child
    again: every later [addChild] of [node] to an allocated node stops at
    the assertion, and none returns. *)
Theorem addChild_only_once (h h' h'' : Linked.store)
    (this node other : Linked.addr) :
  Linked.addChild this node h = Returns h' ->
  later node h' h'' ->
  (exists n'', h'' !! node = Some n'' /\ Linked.fParent n'' = Some this)
  /\ (is_Some (h'' !! other) ->
      Linked.addChild other node h'' = AssertionFailed)
  /\ (forall h3, Linked.addChild other node h'' <> Returns h3).
Proof.
  intros Hadd Hlater.
  assert (Hpar : exists n'', h'' !! node = Some n''
                             /\ Linked.fParent n'' = Some this).
  { induction Hlater as [h'|h' h1 h2 _ IH Hcall Hsome].
    - by apply addChild_parent in Hadd.
    - eapply call_keeps_parent; [exact Hcall | exact Hsome | by apply IH]. }
  split; [exact Hpar|].
  destruct Hpar as (n'' & Hn'' & Hpar). unfold Linked.addChild. rewrite Hn''.
  split.
  - intros [on Hon]. rewrite Hon.
    rewrite bool_decide_eq_false_2; [done|]. by rewrite Hpar.
  - intros h3. destruct (h'' !! other); [|done].
    rewrite bool_decide_eq_false_2; [done|]. by rewrite Hpar.
Qed.

Lemma addChild_only_once_witness :
  exists h'',
    later 2%positive linked_example_attached h''
    /\ h'' !! 3%positive = None
    /\ Linked.fRemapStatus <$> h'' !! 2%positive = Some REMAP_STATUS_FULL
    /\ Linked.addChild 4%positive 2%positive h'' = AssertionFailed
    /\ Linked.addChild 1%positive 2%positive h'' = AssertionFailed.
Proof.
  assert (Hlater : exists h'',
             later 2%positive linked_example_attached h''
             /\ h'' !! 3%positive = None
             /\ Linked.fRemapStatus <$> h'' !! 2%positive
                = Some REMAP_STATUS_FULL
             /\ is_Some (h'' !! 4%positive)
             /\ is_Some (h'' !! 1%positive)).
  { eexists. split.
    { eapply later_call; [eapply later_call; [eapply later_call|..]|..].
      - apply later_now.
      - apply (call_new 4%positive
                 (mkGxfFeature "chr1" SOURCE_HAVANA GENE 20 30 "+" [])).
        reflexivity.
      - by eexists.
      - apply (call_delete 1 3%positive). reflexivity.
      - by eexists.
      - apply (call_assignRemapStatus REMAP_STATUS_FULL
                 [2%positive; 4%positive]).
        reflexivity.
      - by eexists. }
    repeat split; by eexists. }
  destruct Hlater as (h'' & Hlater & Hgone & Hstatus & H4 & H1).
  exists h''. split; [exact Hlater|]. split; [exact Hgone|].
  split; [exact Hstatus|]. split.
  - exact (proj1 (proj2 (addChild_only_once linked_example
                           linked_example_attached h'' 1%positive 2%positive
                           4%positive eq_refl Hlater)) H4).
  - exact (proj1 (proj2 (addChild_only_once linked_example
                           linked_example_attached h'' 1%positive 2%positive
                           1%positive eq_refl Hlater)) H1).
Defined.

(** ** Freeing the trees of a result *)

Lemma deleteNode_root_gone (fuel : nat) (node : Linked.addr)
    (h h' : Linked.store) :
  Linked.deleteNode fuel node h = Some (Returns h') -> h' !! node = None.
Proof.
  unfold Linked.deleteNode. destruct fuel as [|fuel]; simpl; [done|].
  destruct (h !! node) as [n|]; [|done]. intros Hrun.
  apply andThen_returns in Hrun as (h1 & _ & Hlast).
  destruct (h1 !! node); [|done]. injection Hlast as <-.
  apply lookup_delete_eq.
Qed.

Lemma deletePtr_only_deletes (fuel : nat) (p : option Linked.addr)
    (h h' : Linked.store) :
  Linked.deletePtr fuel p h = Some (Returns h') ->
  (forall b, h' !! b = None \/ h' !! b = h !! b)
  /\ (forall node, p = Some node -> h' !! node = None).
Proof.
  destruct p as [node|]; simpl; intros Hrun.
  - split; [by eapply deleteNode_only_deletes|].
    intros ? [= <-]. by eapply deleteNode_root_gone.
  - injection Hrun as <-. split; [by right | done].
Qed.

Lemma deletePtr_gone (fuel : nat) (node : Linked.addr)
    (h h' : Linked.store) :
  h !! node = None ->
  Linked.deletePtr fuel (Some node) h <> Some (Returns h').
Proof.
  intros Hgone. simpl. unfold Linked.deleteNode.
  destruct fuel as [|fuel]; simpl; [done|]. by rewrite Hgone.
Qed.

(** What [free] leaves of the three trees. *)
Lemma free_releases (fuel : nat) (r : Linked.ResultFeatureTrees.t)
    (h h' : Linked.store) (node : Linked.addr) :
  Linked.ResultFeatureTrees.free fuel r h = Some (Returns h') ->
  Linked.ResultFeatureTrees.mapped r = Some node
  \/ Linked.ResultFeatureTrees.unmapped r = Some node
  \/ Linked.ResultFeatureTrees.target r = Some node ->
  h' !! node = None.
Proof.
  unfold Linked.ResultFeatureTrees.free. intros Hrun Hnode.
  apply andThen_returns in Hrun as (h1 & Hm & Hrun).
  apply andThen_returns in Hrun as (h2 & Hu & Htg).
  apply deletePtr_only_deletes in Hm as [Hm1 Hm2].
  apply deletePtr_only_deletes in Hu as [Hu1 Hu2].
  apply deletePtr_only_deletes in Htg as [Htg1 Htg2].
  assert (Hstay : forall b, h1 !! b = None -> h' !! b = None).
  { intros b Hb. destruct (Htg1 b) as [?|Heq]; [done|]. rewrite Heq.
    destruct (Hu1 b) as [?|Heq']; [done|]. by rewrite Heq'. }
  destruct Hnode as [Hn|[Hn|Hn]].
  - by apply Hstay, Hm2.
  - destruct (Htg1 node) as [?|Heq]; [done|]. rewrite Heq. by apply Hu2.
  - by apply Htg2.
Qed.

(** X9: [free] deletes the three trees and leaves the three pointers as
    they are.  Whenever it returns and one of the trees was present,
    [getRemapStatus] of the same result reads a node that has been
    released; only a result without any tree still gets the deleted
    status. *)
Theorem free_keeps_pointers (fuel : nat) (r : Linked.ResultFeatureTrees.t)
    (h h' : Linked.store) :
  Linked.ResultFeatureTrees.free fuel r h = Some (Returns h') ->
  Linked.ResultFeatureTrees.getRemapStatus r h'
  = if bool_decide (Linked.ResultFeatureTrees.mapped r = None
                    /\ Linked.ResultFeatureTrees.unmapped r = None
                    /\ Linked.ResultFeatureTrees.target r = None)
    then Returns REMAP_STATUS_DELETED
    else Undefined.
Proof.
  intros Hfree.
  pose proof (free_releases fuel r h h') as Hgone.
  unfold Linked.ResultFeatureTrees.getRemapStatus,
    Linked.ResultFeatureTrees.readRemapStatus.
  destruct r as [s [m|] [u|] [tg|]]; simpl in *;
    rewrite ?(Hgone m), ?(Hgone u), ?(Hgone tg) by (done || tauto);
    try (rewrite bool_decide_eq_false_2 by (intros (? & ? & ?); done));
    try done.
Qed.

Lemma free_keeps_pointers_witness :
  exists h',
    Linked.ResultFeatureTrees.free 1 linked_result linked_example_attached
    = Some (Returns h')
    /\ Linked.ResultFeatureTrees.getRemapStatus linked_result h' = Undefined
    /\ Linked.ResultFeatureTrees.getRemapStatus linked_result
         linked_example_attached
       = Returns REMAP_STATUS_NONE.
Proof.
  eexists. split; [vm_compute; reflexivity|]. split; [|reflexivity].
  exact (free_keeps_pointers 1 linked_result linked_example_attached _
           eq_refl).
Defined.

(** X10: [freeMapped] on a result whose mapped pointer is the root of a
    tree held by the store returns, given fuel for the number of nodes of
    the tree: the tree is released, the mapped pointer is NULL, and
    [getRemapStatus] then reads the unmapped tree when its root is not a
    node of the released tree. *)
Theorem freeMapped_then_unmapped (fuel : nat)
    (r : Linked.ResultFeatureTrees.t) (h : Linked.store) (t : ptree)
    (u : Linked.addr) (un : Linked.FeatureNode) :
  Linked.ResultFeatureTrees.mapped r = Some (proot t) ->
  shape h t ->
  NoDup (addrs t) ->
  (length (addrs t) <= fuel)%nat ->
  Linked.ResultFeatureTrees.unmapped r = Some u ->
  u ∉ addrs t ->
  h !! u = Some un ->
  exists r' h',
    Linked.ResultFeatureTrees.freeMapped fuel r h = Some (Returns (r', h'))
    /\ Linked.ResultFeatureTrees.mapped r' = None
    /\ (forall a, a ∈ addrs t -> h' !! a = None)
    /\ (forall a, a ∉ addrs t -> h' !! a = h !! a)
    /\ Linked.ResultFeatureTrees.getRemapStatus r' h'
       = Returns (Linked.fRemapStatus un).
Proof.
  intros Hm Hshape Hnd Hfuel Hu Hout Hun.
  destruct (deleteNode_tree t fuel h Hshape Hnd Hfuel) as (h' & Hrun & Hspec).
  unfold Linked.ResultFeatureTrees.freeMapped. rewrite Hm. simpl.
  rewrite Hrun. simpl. eexists _, h'. split; [done|]. split; [done|].
  split; [|split].
  - intros a Ha. by rewrite Hspec, decide_True.
  - intros a Ha. by rewrite Hspec, decide_False.
  - unfold Linked.ResultFeatureTrees.getRemapStatus,
      Linked.ResultFeatureTrees.readRemapStatus. simpl.
    by rewrite Hu, Hspec, decide_False, Hun.
Qed.

Lemma freeMapped_then_unmapped_witness :
  exists r' h',
    Linked.ResultFeatureTrees.freeMapped 1 linked_result
      linked_example_attached = Some (Returns (r', h'))
    /\ Linked.ResultFeatureTrees.mapped r' = None
    /\ h' !! 2%positive = None
    /\ Linked.ResultFeatureTrees.getRemapStatus r' h'
       = Returns REMAP_STATUS_NONE.
Proof.
  destruct (freeMapped_then_unmapped 1 linked_result linked_example_attached
              (PNode 2%positive []) 3%positive
              (Linked.set_parent 1%positive
                 (Linked.newFeatureNode
                    (mkGxfFeature "chr1" SOURCE_HAVANA TRANSCRIPT 0 10
                                  "+" []))))
    as (r' & h' & Hrun & Hnull & Hgone & _ & Hget).
  - reflexivity.
  - solve_shape.
  - apply (bool_decide_unpack _). vm_compute. exact I.
  - simpl. lia.
  - reflexivity.
  - apply (bool_decide_unpack _). vm_compute. exact I.
  - reflexivity.
  - exists r', h'. split; [exact Hrun|]. split; [exact Hnull|].
    split; [|exact Hget]. apply Hgone. apply list_elem_of_here.
Defined.

(** X11: [free] never returns normally on a result in which one node
    pointer stands in two of the three places: the second [delete] of it
    meets a node that is released already. *)
Theorem free_of_shared_pointer (fuel : nat)
    (r : Linked.ResultFeatureTrees.t) (h h' : Linked.store)
    (node : Linked.addr) :
  (Linked.ResultFeatureTrees.mapped r = Some node
   /\ Linked.ResultFeatureTrees.unmapped r = Some node)
  \/ (Linked.ResultFeatureTrees.mapped r = Some node
      /\ Linked.ResultFeatureTrees.target r = Some node)
  \/ (Linked.ResultFeatureTrees.unmapped r = Some node
      /\ Linked.ResultFeatureTrees.target r = Some node) ->
  Linked.ResultFeatureTrees.free fuel r h <> Some (Returns h').
Proof.
  unfold Linked.ResultFeatureTrees.free. intros Hshared Hrun.
  apply andThen_returns in Hrun as (h1 & Hm & Hrun).
  apply andThen_returns in Hrun as (h2 & Hu & Htg).
  pose proof (deletePtr_only_deletes _ _ _ _ Hm) as [Hm1 Hm2].
  pose proof (deletePtr_only_deletes _ _ _ _ Hu) as [Hu1 Hu2].
  destruct Hshared as [[Hn1 Hn2]|[[Hn1 Hn2]|[Hn1 Hn2]]].
  - rewrite Hn2 in Hu. revert Hu. apply deletePtr_gone. by apply Hm2.
  - rewrite Hn2 in Htg. revert Htg. apply deletePtr_gone.
    destruct (Hu1 node) as [?|Heq]; [done|]. rewrite Heq. by apply Hm2.
  - rewrite Hn2 in Htg. revert Htg. apply deletePtr_gone. by apply Hu2.
Qed.

Lemma free_of_shared_pointer_witness :
  Linked.ResultFeatureTrees.free 2
    (Linked.ResultFeatureTrees.mk None (Some 2%positive) (Some 2%positive)
                                  None)
    linked_example_attached
  = Some Undefined
  /\ forall h',
       Linked.ResultFeatureTrees.free 2
         (Linked.ResultFeatureTrees.mk None (Some 2%positive)
                                       (Some 2%positive) None)
         linked_example_attached
       <> Some (Returns h').
Proof.
  split; [reflexivity|].
  intros h'. apply (free_of_shared_pointer 2 _ _ h' 2%positive).
  left. split; reflexivity.
Defined.

(** ** Vectors of results *)

Lemma haveMapped_Exists (v : ResultFeatureTreesVector.t) :
  ResultFeatureTreesVector.haveMapped v = true
  <-> exists r, r ∈ v /\ is_Some (ResultFeatureTrees.mapped r).
Proof.
  induction v as [|r v IH]; simpl.
  - split; [done|]. intros (r & Hr & _). by apply elem_of_nil in Hr.
  - case_bool_decide as Hm.
    + split; [|done]. intros _. exists r.
      split; [apply list_elem_of_here|].
      by destruct (ResultFeatureTrees.mapped r); [eexists|].
    + rewrite IH. split.
      * intros (r' & Hr' & Hsome). exists r'.
        split; [by apply list_elem_of_further | done].
      * intros (r' & Hr' & Hsome).
        apply elem_of_cons in Hr' as [->|Hr']; [|by exists r'].
        destruct Hsome as [m Hsome]. congruence.
Qed.

Lemma haveUnmapped_Exists (v : ResultFeatureTreesVector.t) :
  ResultFeatureTreesVector.haveUnmapped v = true
  <-> exists r, r ∈ v /\ is_Some (ResultFeatureTrees.unmapped r).
Proof.
  induction v as [|r v IH]; simpl.
  - split; [done|]. intros (r & Hr & _). by apply elem_of_nil in Hr.
  - case_bool_decide as Hu.
    + split; [|done]. intros _. exists r.
      split; [apply list_elem_of_here|].
      by destruct (ResultFeatureTrees.unmapped r); [eexists|].
    + rewrite IH. split.
      * intros (r' & Hr' & Hsome). exists r'.
        split; [by apply list_elem_of_further | done].
      * intros (r' & Hr' & Hsome).
        apply elem_of_cons in Hr' as [->|Hr']; [|by exists r'].
        destruct Hsome as [u Hsome]. congruence.
Qed.

Lemma have_fmap (g : ResultFeatureTrees.t -> ResultFeatureTrees.t)
    (v : ResultFeatureTreesVector.t) :
  (forall r, is_Some (ResultFeatureTrees.mapped (g r))
             <-> is_Some (ResultFeatureTrees.mapped r)) ->
  (forall r, is_Some (ResultFeatureTrees.unmapped (g r))
             <-> is_Some (ResultFeatureTrees.unmapped r)) ->
  ResultFeatureTreesVector.haveMapped (g <$> v)
  = ResultFeatureTreesVector.haveMapped v
  /\ ResultFeatureTreesVector.haveUnmapped (g <$> v)
     = ResultFeatureTreesVector.haveUnmapped v.
Proof.
  intros Hm Hu.
  assert (Hnone : forall o : option FeatureNode.t, o <> None <-> is_Some o).
  { intros [x|]; split; intros H0;
      first [done | by eexists | by destruct H0 | by inversion H0]. }
  induction v as [|r v [IHm IHu]]; [done|]. rewrite fmap_cons. simpl.
  rewrite IHm, IHu.
  rewrite (bool_decide_ext _ _ (Hnone (ResultFeatureTrees.mapped (g r)))).
  rewrite (bool_decide_ext _ _ (Hnone (ResultFeatureTrees.unmapped (g r)))).
  rewrite (bool_decide_ext _ _ (Hm r)), (bool_decide_ext _ _ (Hu r)).
  rewrite <- (bool_decide_ext _ _ (Hnone (ResultFeatureTrees.mapped r))).
  rewrite <- (bool_decide_ext _ _ (Hnone (ResultFeatureTrees.unmapped r))).
  done.
Qed.

(** X12: [haveMapped] and [haveUnmapped] say whether some element of the
    vector has a mapped, an unmapped tree; both are false on the empty
    vector.  When both are false every element reports 0 mappings.
    Applying an operation that fans out over the mapped and unmapped
    trees to every element changes neither answer. *)
Theorem haveMapped_haveUnmapped (v : ResultFeatureTreesVector.t) :
  (ResultFeatureTreesVector.haveMapped v = true
   <-> exists r, r ∈ v /\ is_Some (ResultFeatureTrees.mapped r))
  /\ (ResultFeatureTreesVector.haveUnmapped v = true
      <-> exists r, r ∈ v /\ is_Some (ResultFeatureTrees.unmapped r))
  /\ (ResultFeatureTreesVector.haveMapped v = false ->
      ResultFeatureTreesVector.haveUnmapped v = false ->
      forall r, r ∈ v -> ResultFeatureTrees.getNumMappings r = 0)
  /\ (forall f g, fans_out f g ->
        ResultFeatureTreesVector.haveMapped (g <$> v)
        = ResultFeatureTreesVector.haveMapped v
        /\ ResultFeatureTreesVector.haveUnmapped (g <$> v)
           = ResultFeatureTreesVector.haveUnmapped v).
Proof.
  split; [apply haveMapped_Exists|]. split; [apply haveUnmapped_Exists|].
  split.
  - intros Hm Hu r Hr. unfold ResultFeatureTrees.getNumMappings.
    destruct (ResultFeatureTrees.mapped r) as [m|] eqn:Hrm.
    { assert (ResultFeatureTreesVector.haveMapped v = true); [|congruence].
      apply haveMapped_Exists. exists r. rewrite Hrm. by split; [|eexists]. }
    destruct (ResultFeatureTrees.unmapped r) as [u|] eqn:Hru; [|done].
    assert (ResultFeatureTreesVector.haveUnmapped v = true); [|congruence].
    apply haveUnmapped_Exists. exists r. rewrite Hru. by split; [|eexists].
  - intros f g Hfan. apply have_fmap; intros r;
      destruct (Hfan r) as (_ & Hm & Hu & _); rewrite ?Hm, ?Hu;
      apply fmap_is_Some.
Qed.

Lemma haveMapped_haveUnmapped_witness :
  let r := ResultFeatureTrees.mk None None None
             (Some (FeatureNode.mk
                      (mkGxfFeature "chr1" SOURCE_HAVANA GENE 0 9 "+" [])
                      [] REMAP_STATUS_FULL TARGET_STATUS_NEW 3)) in
  ResultFeatureTrees.getNumMappings r = 0.
Proof.
  intros r.
  apply (proj1 (proj2 (proj2 (haveMapped_haveUnmapped [r]))));
    [reflexivity | reflexivity | apply list_elem_of_here].
Defined.

(** ** Status of a bounding feature, read back *)

(** X13: after [setBoundingFeatureRemapStatus] the mapped and the unmapped
    tree carry one status, so [getRemapStatus] is the same after
    [freeMapped] or [freeUnmapped] as long as the other tree is there;
    a result with neither tree is left as it is, its target tree included;
    and [getTargetStatus] and [getNumMappings] are never changed. *)
Theorem setBoundingFeatureRemapStatus_read_back (srcSeqInMapping : bool)
    (r : ResultFeatureTrees.t) :
  let r' := ResultFeatureTrees.setBoundingFeatureRemapStatus
              srcSeqInMapping r in
  (is_Some (ResultFeatureTrees.mapped r) ->
   is_Some (ResultFeatureTrees.unmapped r) ->
   ResultFeatureTrees.getRemapStatus (ResultFeatureTrees.freeMapped r')
   = ResultFeatureTrees.getRemapStatus r'
   /\ ResultFeatureTrees.getRemapStatus (ResultFeatureTrees.freeUnmapped r')
      = ResultFeatureTrees.getRemapStatus r')
  /\ (ResultFeatureTrees.mapped r = None ->
      ResultFeatureTrees.unmapped r = None ->
      r' = r)
  /\ ResultFeatureTrees.getTargetStatus r'
     = ResultFeatureTrees.getTargetStatus r
  /\ ResultFeatureTrees.getNumMappings r'
     = ResultFeatureTrees.getNumMappings r.
Proof.
  unfold ResultFeatureTrees.setBoundingFeatureRemapStatus.
  generalize (ResultFeatureTrees.calcBoundingFeatureRemapStatus
                srcSeqInMapping r).
  intros st. destruct r as [s [m|] [u|] tg]; simpl; repeat split;
    try done; intros Hm Hu; try done;
    first [by destruct Hm | by destruct Hu].
Qed.

Lemma setBoundingFeatureRemapStatus_read_back_witness :
  let r' := ResultFeatureTrees.setBoundingFeatureRemapStatus true
              (gene_result [REMAP_STATUS_FULL] [REMAP_STATUS_DELETED]) in
  ResultFeatureTrees.getRemapStatus (ResultFeatureTrees.freeMapped r')
  = ResultFeatureTrees.getRemapStatus r'.
Proof.
  intros r'.
  apply (proj1 (setBoundingFeatureRemapStatus_read_back true
                  (gene_result [REMAP_STATUS_FULL] [REMAP_STATUS_DELETED])));
    by eexists.
Defined.

(** ** Filters of [getMatching] *)

(** What [getMatching] adds to [hits]. *)
Lemma getMatching_adds (filter : GxfFeature -> bool) (n : FeatureNode.t) :
  forall hits,
    FeatureNode.getMatching filter n hits = hits ++ matching filter n.
Proof.
  induction n as [f cs rs ts nm IH] using FeatureNode_ind.
  intros hits. rewrite getMatching_unfold, matching_unfold. simpl.
  assert (Hloop : forall h,
    fold_left (fun h c => FeatureNode.getMatching filter c h) cs h
    = h ++ concat (matching filter <$> cs)).
  { induction IH as [|c cs Hc _ IHcs]; intros h; simpl.
    - by rewrite app_nil_r.
    - rewrite Hc, IHcs. by rewrite <- app_assoc. }
  rewrite Hloop. destruct (filter f); simpl; [|done].
  by rewrite <- app_assoc.
Qed.

Lemma filter_records (p q : GxfFeature -> bool) (l : list FeatureNode.t) :
  FeatureNode.fFeature
    <$> List.filter (fun m => p (FeatureNode.fFeature m)
                              && q (FeatureNode.fFeature m)) l
  = List.filter q
      (FeatureNode.fFeature
         <$> List.filter (fun m => p (FeatureNode.fFeature m)) l).
Proof.
  induction l as [|m l IH]; [done|]. cbn [List.filter].
  destruct (p (FeatureNode.fFeature m)) eqn:Hp; cbn [andb]; [|exact IH].
  destruct (q (FeatureNode.fFeature m)) eqn:Hq;
    rewrite ?fmap_cons; cbn [List.filter]; rewrite ?Hq, IH; done.
Qed.

Lemma filter_split_length (p : GxfFeature -> bool) (l : list FeatureNode.t) :
  (length (List.filter (fun m => p (FeatureNode.fFeature m)) l)
   + length (List.filter (fun m => negb (p (FeatureNode.fFeature m))) l)
   = length l)%nat.
Proof.
  induction l as [|m l IH]; simpl; [done|].
  destruct (p (FeatureNode.fFeature m)); simpl; lia.
Qed.

(** X14: the hits of [getMatching] do not depend on what [hits] held
    before; every hit satisfies the filter; filtering by two predicates at
    once gives the hits of the first that satisfy the second; the hits of
    a filter and of its negation add up to one per node; and the hits of
    a node with one more child at the end of its vector are its hits
    followed by those of the child. *)
Theorem getMatching_filters (p q : GxfFeature -> bool) (n : FeatureNode.t)
    (hits : GxfFeatureVector) :
  FeatureNode.getMatching p n hits = hits ++ FeatureNode.getMatching p n []
  /\ Forall (fun f => p f = true) (FeatureNode.getMatching p n [])
  /\ FeatureNode.getMatching (fun f => p f && q f) n []
     = List.filter q (FeatureNode.getMatching p n [])
  /\ (length (FeatureNode.getMatching p n [])
      + length (FeatureNode.getMatching (fun f => negb (p f)) n [])
      = length (FeatureNode.getMatching (fun _ => true) n []))%nat
  /\ (forall c : FeatureNode.t,
        FeatureNode.getMatching p
          (FeatureNode.mk (FeatureNode.fFeature n)
             (FeatureNode.fChildren n ++ [c]) (FeatureNode.fRemapStatus n)
             (FeatureNode.fTargetStatus n) (FeatureNode.fNumMappings n))
          hits
        = FeatureNode.getMatching p c (FeatureNode.getMatching p n hits)).
Proof.
  split; [|split; [|split; [|split]]].
  - by rewrite (getMatching_adds p n hits), (getMatching_adds p n []).
  - rewrite getMatching_adds. cbn [app].
    unfold matching. apply Forall_forall. intros f Hf.
    apply in_map_iff in Hf as (m & <- & Hm).
    by apply filter_In in Hm as [_ Hm].
  - rewrite !getMatching_adds. cbn [app]. apply filter_records.
  - rewrite !getMatching_adds. cbn [app].
    unfold matching. rewrite !length_fmap.
    rewrite filter_split_length.
    clear. induction (preorder n) as [|m l IH]; simpl; [done | by rewrite IH].
  - intros c. rewrite !getMatching_adds.
    rewrite (matching_unfold p (FeatureNode.mk _ _ _ _ _)).
    rewrite (matching_unfold p n). cbn [FeatureNode.fFeature
                                         FeatureNode.fChildren].
    rewrite fmap_app, concat_app. cbn [fmap list_fmap concat].
    by rewrite app_nil_r, !app_assoc.
Qed.

(** ** Pseudogene biotypes *)

Lemma substring_at_start (s1 : string) :
  forall s, String.substring 0 (String.length s1) s = s1 ->
            exists post, s = String.append s1 post.
Proof.
  induction s1 as [|c s1 IH]; intros s Hsub.
  - by exists s.
  - destruct s as [|c' s]; simpl in Hsub; [done|].
    injection Hsub as -> Hsub.
    destruct (IH s Hsub) as (post & ->). by exists post.
Qed.

Lemma substring_occurs (s1 : string) (m : nat) :
  s1 <> EmptyString ->
  forall s, String.substring m (String.length s1) s = s1 ->
            exists pre post, s = String.append pre (String.append s1 post).
Proof.
  intros Hne. induction m as [|m IH]; intros s Hsub.
  - destruct (substring_at_start s1 s Hsub) as (post & ->).
    by exists EmptyString, post.
  - destruct s as [|c s].
    + destruct s1; simpl in Hsub; done.
    + simpl in Hsub. destruct (IH s Hsub) as (pre & post & ->).
      by exists (String c pre), post.
Qed.

Lemma substring_of_prefix (s1 post : string) :
  String.substring 0 (String.length s1) (String.append s1 post) = s1.
Proof.
  induction s1 as [|c s1 IH]; simpl; [by destruct post | by rewrite IH].
Qed.

Lemma substring_of_occurrence (pre s1 post : string) :
  String.substring (String.length pre) (String.length s1)
                   (String.append pre (String.append s1 post)) = s1.
Proof.
  induction pre as [|c pre IH];
    [exact (substring_of_prefix s1 post) | simpl; exact IH].
Qed.

Lemma append_length (s t : string) :
  String.length (String.append s t)
  = (String.length s + String.length t)%nat.
Proof. induction s as [|c s IH]; simpl; [done | by rewrite IH]. Qed.

Lemma append_assoc (s t u : string) :
  String.append (String.append s t) u = String.append s (String.append t u).
Proof.
  induction s as [|c s IH]; [done|].
  change (String c (String.append (String.append s t) u)
          = String c (String.append s (String.append t u))).
  by rewrite IH.
Qed.

(** [find] of a non-empty string succeeds exactly when the string occurs. *)
Lemma index_occurs (s1 s : string) :
  s1 <> EmptyString ->
  String.index 0 s1 s <> None
  <-> exists pre post, s = String.append pre (String.append s1 post).
Proof.
  intros Hne. split.
  - destruct (String.index 0 s1 s) as [m|] eqn:Hidx; [|done]. intros _.
    apply String.index_correct1 in Hidx. by eapply substring_occurs.
  - intros (pre & post & ->) Hidx.
    eapply (String.index_correct3 0 (String.length pre)); eauto; [lia|].
    apply substring_of_occurrence.
Qed.

(** X15: [isPseudogene] is true exactly for a biotype in which
    [pseudogene] occurs and that is not [polymorphic_pseudogene] itself;
    a longer biotype that contains [polymorphic_pseudogene] counts as a
    pseudogene. *)
Theorem isPseudogene_biotype (getTypeBiotype : GxfFeature -> string)
    (n : FeatureNode.t) :
  let biotype := getTypeBiotype (FeatureNode.fFeature n) in
  (FeatureNode.isPseudogene getTypeBiotype n = true
   <-> biotype <> "polymorphic_pseudogene"
       /\ exists pre post,
            biotype = String.append pre (String.append "pseudogene" post))
  /\ (forall pre post,
        biotype
        = String.append pre (String.append "polymorphic_pseudogene" post) ->
        pre <> EmptyString \/ post <> EmptyString ->
        FeatureNode.isPseudogene getTypeBiotype n = true).
Proof.
  intros biotype.
  assert (Hiff : FeatureNode.isPseudogene getTypeBiotype n = true
                 <-> biotype <> "polymorphic_pseudogene"
                     /\ exists pre post,
                          biotype
                          = String.append pre
                              (String.append "pseudogene" post)).
  { unfold FeatureNode.isPseudogene. fold biotype.
    rewrite andb_true_iff, !bool_decide_eq_true.
    by rewrite index_occurs. }
  split; [exact Hiff|].
  intros pre post Hbio Hlonger. apply Hiff. split.
  - intros Heq. rewrite Heq in Hbio.
    assert (Hlen : String.length "polymorphic_pseudogene"
                   = String.length
                       (String.append pre
                          (String.append "polymorphic_pseudogene" post)))
      by (by rewrite <- Hbio).
    rewrite !append_length in Hlen.
    destruct Hlonger as [Hpre|Hpost].
    + destruct pre; [done|]. simpl in Hlen. lia.
    + destruct post; [done|]. simpl in Hlen. lia.
  - exists (String.append pre "polymorphic_"), post.
    by rewrite Hbio, append_assoc.
Qed.

Example isPseudogene_examples :
  let node biotype :=
    FeatureNode.new (mkGxfFeature "chr1" SOURCE_HAVANA GENE 0 9 "+"
                                  [("gene_type", biotype)]) in
  let getTypeBiotype f :=
    match fAttrs f with
    | (_, v) :: _ => v
    | [] => EmptyString
    end in
  FeatureNode.isPseudogene getTypeBiotype (node "processed_pseudogene") = true
  /\ FeatureNode.isPseudogene getTypeBiotype (node "pseudogene") = true
  /\ FeatureNode.isPseudogene getTypeBiotype (node "polymorphic_pseudogene")
     = false
  /\ FeatureNode.isPseudogene getTypeBiotype (node "protein_coding") = false
  /\ FeatureNode.isPseudogene getTypeBiotype (node "") = false.
Proof. repeat split; vm_compute; reflexivity. Qed.

(** ** The set of written sequence regions after a run *)

Lemma checkRecord_frame (s : string) (a : AnnotationSet.t) :
  (AnnotationSet.checkRecordSeqRegionWritten s a).2
  = AnnotationSet.mk (AnnotationSet.fIdFeatureMap a)
      (AnnotationSet.fNameFeatureMap a) (AnnotationSet.fGenes a)
      ({[s]} ∪ AnnotationSet.fSeqRegionsWritten a)
      (AnnotationSet.fGenomeSizes a).
Proof.
  destruct (decide (s ∈ AnnotationSet.fSeqRegionsWritten a)) as [Hs|Hs].
  - rewrite checkRecord_again by done. destruct a as [ids names genes w sizes].
    simpl in *. f_equal. apply leibniz_equiv. intros x.
    rewrite elem_of_union, elem_of_singleton.
    split; [tauto|]. by intros [->|].
  - by rewrite checkRecord_first.
Qed.

Lemma checkRecordAll_frame (seqids : list string) (a : AnnotationSet.t) :
  (AnnotationSet.checkRecordAll seqids a).2
  = AnnotationSet.mk (AnnotationSet.fIdFeatureMap a)
      (AnnotationSet.fNameFeatureMap a) (AnnotationSet.fGenes a)
      (list_to_set seqids ∪ AnnotationSet.fSeqRegionsWritten a)
      (AnnotationSet.fGenomeSizes a).
Proof.
  revert a. induction seqids as [|s rest IH]; intros a.
  - destruct a as [ids names genes w sizes]. simpl. f_equal.
    apply leibniz_equiv. intros x. rewrite elem_of_union, elem_of_empty.
    tauto.
  - cbn [AnnotationSet.checkRecordAll].
    pose proof (checkRecord_frame s a) as Hs.
    destruct (AnnotationSet.checkRecordSeqRegionWritten s a) as [b a1].
    specialize (IH a1).
    destruct (AnnotationSet.checkRecordAll rest a1) as [bs a2].
    cbn [snd] in *. rewrite IH, Hs. cbn. f_equal.
    apply leibniz_equiv. intros x.
    rewrite !elem_of_union, elem_of_singleton. tauto.
Qed.

(** X16: a run of calls of [checkRecordSeqRegionWritten] leaves the set
    with the ids of the run added to the written sequence regions and
    with nothing else changed (the genes and both indexes are as before);
    the calls answered with false are as many as the distinct ids of the
    run that were not written before; and the set after the run does not
    depend on the order of the calls. *)
Theorem checkRecordAll_final (seqids : list string) (a : AnnotationSet.t) :
  let a' := (AnnotationSet.checkRecordAll seqids a).2 in
  AnnotationSet.fSeqRegionsWritten a'
  = list_to_set seqids ∪ AnnotationSet.fSeqRegionsWritten a
  /\ AnnotationSet.getGenes a' = AnnotationSet.getGenes a
  /\ AnnotationSet.fIdFeatureMap a' = AnnotationSet.fIdFeatureMap a
  /\ AnnotationSet.fNameFeatureMap a' = AnnotationSet.fNameFeatureMap a
  /\ AnnotationSet.fGenomeSizes a' = AnnotationSet.fGenomeSizes a
  /\ length (AnnotationSet.newlyRecorded seqids a)
     = size (list_to_set seqids ∖ AnnotationSet.fSeqRegionsWritten a
             : gset string)
  /\ (forall seqids', seqids ≡ₚ seqids' ->
        (AnnotationSet.checkRecordAll seqids' a).2 = a').
Proof.
  intros a'. unfold a'. rewrite checkRecordAll_frame.
  repeat split.
  - destruct (newlyRecorded_distinct seqids a) as [Hnd Hmem].
    rewrite <- (size_list_to_set (C := gset string)) by done. f_equal.
    apply leibniz_equiv. intros x.
    rewrite elem_of_list_to_set, Hmem, elem_of_difference,
      elem_of_list_to_set.
    tauto.
  - intros seqids' Hperm. rewrite checkRecordAll_frame.
    by rewrite (list_to_set_perm_L (C := gset string) _ _ Hperm).
Qed.
